(** * Rotate_matrix: in-place rotation of a square matrix by 90 degrees

    Shallow embedding of [src/rotate_matrix.py] ([odd], [get_cycle],
    [rotate_matrix], [generate_matrix], [create_matrix], [print_matrix])
    and the properties of the ring decomposition, of the rotation and of
    the input and output of matrices.

    Conventions.
    - Python integers are [Z]; a nested list of integers is [list (list Z)].
    - [int(dim/2)] divides in floating point.  Below 2^53 in absolute value
      the quotient is exact and [int] truncates it towards zero, which is
      [Z.quot dim 2]: [get_cycle] and [rotate_matrix] are written with it,
      the dimension of a matrix being the length of a list.  [int_half]
      is the division for every integer and [get_cycle_exact] is
      [get_cycle] with it; the two agree below 2^53
      ([get_cycle_exact_small]).
    - [l[i]] follows Python: an index in [-len, 0) counts from the end, an
      index outside [-len, len) raises [IndexError] (here: [None]).
    - The matrix is the only mutable object; it lives in a [store], next to
      a trace of the cell accesses in program order.  Its rows are distinct
      objects, as [create_matrix] and [generate_matrix] build them.
    - Standard input is the list of the lines still to be read, standard
      output the text written so far; [str.split()] is a parameter of
      [create_matrix].  [str(n)] of an integer is its decimal numeral, and
      raises [ValueError] when the numeral has more digits than the limit
      [sys.get_int_max_str_digits()] of the interpreter (4300 unless it is
      set otherwise, 0 for no limit), a parameter of [print_matrix]. *)

From Stdlib Require Import Ascii.
From stdpp Require Import prelude list_numbers strings pretty.

#[local] Set Warnings "-clear-no-such-hyp".
Local Open Scope Z_scope.

(** ** Python primitives *)

Module Py.

(** [len(l)] *)
Definition len {A} (l : list A) : Z := Z.of_nat (length l).

(** [range(start, stop)] *)
Definition range (start stop : Z) : list Z := seqZ start (stop - start).

(** [range(start, stop, -1)] *)
Definition range_down (start stop : Z) : list Z :=
    (λ k, start - k) <$> seqZ 0 (start - stop).

(** Position denoted by the subscript [i] in a sequence of length [n]. *)
Definition index (n i : Z) : option nat :=
    if decide (0 ≤ i < n) then Some (Z.to_nat i)
    else if decide (- n ≤ i < 0) then Some (Z.to_nat (n + i))
    else None.

(** [l[i]] *)
Definition getitem {A} (l : list A) (i : Z) : option A :=
    k ← index (len l) i; l !! k.

(** [l[i] = v] *)
Definition setitem {A} (l : list A) (i : Z) (v : A) : option (list A) :=
    k ← index (len l) i; Some (<[k := v]> l).

End Py.

(** ** Data *)

Abbreviation coord := (Z * Z)%type (only parsing).
Abbreviation matrix := (list (list Z)) (only parsing).

(** [matr[r][c]] as an expression. *)
Definition entry (matr : matrix) (p : coord) : option Z :=
  row ← Py.getitem matr p.1; Py.getitem row p.2.

(** [matr[r][c] = v]: the row object [matr[r]] is fetched and updated in
    place, so the matrix afterwards holds the updated row in slot [r]. *)
Definition store_entry (matr : matrix) (p : coord) (v : Z) : option matrix :=
  row ← Py.getitem matr p.1;
  row' ← Py.setitem row p.2 v;
  Py.setitem matr p.1 row'.

(** ** [generate_matrix] *)

Definition generate_matrix (dim : Z) : matrix :=
  foldl (λ matr i, matr ++ [Py.range ((i + 1) * dim - dim + 1) ((i + 1) * dim + 1)])
        [] (Py.range 0 dim).

(** ** [odd] and [get_cycle] *)

Definition odd (dim cycle : Z) : Z :=
  if decide (dim `mod` 2 ≠ 0) then cycle + 1 else cycle.

Definition get_cycle (cycle dim : Z) : list coord * Z :=
  let cycle_rot : list coord := [] in
  let init := Z.quot dim 2 in
  let size := 0 in
  (* upper side *)
  let cycle_rot :=
    foldl (λ acc i, acc ++ [(init - cycle - 1, i)]) cycle_rot
          (Py.range (init - cycle - 1) (init + odd dim cycle + 1)) in
  let size := Py.len cycle_rot - 1 in
  (* right side *)
  let cycle_rot :=
    foldl (λ acc i, acc ++ [(i, init + odd dim cycle)]) cycle_rot
          (Py.range (init - cycle) (init + odd dim cycle + 1)) in
  (* lower side (go backwards) *)
  let cycle_rot :=
    foldl (λ acc i, acc ++ [(init + odd dim cycle, i)]) cycle_rot
          (Py.range_down (init + odd dim cycle - 1) (init - cycle - 2)) in
  (* left side (go backwards) *)
  let cycle_rot :=
    foldl (λ acc i, acc ++ [(i, init - cycle - 1)]) cycle_rot
          (Py.range_down (init + odd dim cycle - 1) (init - cycle - 1)) in
  (cycle_rot, size).

(** ** [int(dim/2)] for every integer *)

(** The quotient [dim/2] of two Python integers is the double nearest to
    the exact quotient (53 significant bits, ties to the even one), and
    OverflowError when that is 2^1024 or more; [int] of a double is
    exact.  With [s] the number of bits of [dim] beyond 53, the quotient
    is a multiple of 2^(s-1).  [None] stands for OverflowError. *)
Definition int_half (dim : Z) : option Z :=
  let n := Z.abs dim in
  let s := Z.log2 n + 1 - 53 in
  if decide (s ≤ 0) then Some (Z.quot dim 2)
  else
    let q := n `div` 2 ^ s in
    let r := n `mod` 2 ^ s in
    let half := 2 ^ (s - 1) in
    let q' := if decide (half < r ∨ (r = half ∧ Z.odd q = true))
              then q + 1 else q in
    let v := q' * 2 ^ (s - 1) in
    if decide (2 ^ 1024 ≤ v) then None else Some (Z.sgn dim * v).

(** [get_cycle] with [init = int(dim/2)] computed by [int_half]. *)
Definition get_cycle_exact (cycle dim : Z) : option (list coord * Z) :=
  init ← int_half dim;
  let cycle_rot : list coord := [] in
  let size := 0 in
  (* upper side *)
  let cycle_rot :=
    foldl (λ acc i, acc ++ [(init - cycle - 1, i)]) cycle_rot
          (Py.range (init - cycle - 1) (init + odd dim cycle + 1)) in
  let size := Py.len cycle_rot - 1 in
  (* right side *)
  let cycle_rot :=
    foldl (λ acc i, acc ++ [(i, init + odd dim cycle)]) cycle_rot
          (Py.range (init - cycle) (init + odd dim cycle + 1)) in
  (* lower side (go backwards) *)
  let cycle_rot :=
    foldl (λ acc i, acc ++ [(init + odd dim cycle, i)]) cycle_rot
          (Py.range_down (init + odd dim cycle - 1) (init - cycle - 2)) in
  (* left side (go backwards) *)
  let cycle_rot :=
    foldl (λ acc i, acc ++ [(i, init - cycle - 1)]) cycle_rot
          (Py.range_down (init + odd dim cycle - 1) (init - cycle - 1)) in
  Some (cycle_rot, size).

(** ** The store and its monad *)

Inductive event : Type :=
  | Rd (p : coord)
  | Wr (p : coord).

Record store : Type := Store { matr : matrix; trace : list event }.

(** A command runs on a store and either raises or returns a value and the
    store it leaves. *)
Definition M (A : Type) : Type := store → option (A * store).

Definition ret {A} (x : A) : M A := λ s, Some (x, s).

Definition bind {A B} (m : M A) (f : A → M B) : M B :=
  λ s, match m s with
       | Some (x, s') => f x s'
       | None => None
       end.

Declare Scope cmd_scope.
Delimit Scope cmd_scope with cmd.
Notation "'let!' x ':=' m 'in' k" := (bind m (λ x, k))
  (at level 10, x name, m at level 100, k at level 200,
   format "'[v' 'let!'  x  ':='  m  'in' '/' k ']'") : cmd_scope.
Notation "m ';;;' k" := (bind m (λ _, k))
  (at level 100, k at level 200, right associativity,
   format "'[v' m  ';;;' '/' k ']'") : cmd_scope.

(** [for x in l: body(x)] *)
Fixpoint for_ {A} (l : list A) (body : A → M unit) : M unit :=
  match l with
  | [] => ret ()
  | x :: l => bind (body x) (λ _, for_ l body)
  end.

(** The expression [matr[rot[k][0]][rot[k][1]]]; [rot] is not assigned to
    inside the loops, so its two subscripts [rot[k]] yield the same pair. *)
Definition load (rot : list coord) (k : Z) : M Z :=
  λ s, p ← Py.getitem rot k;
       v ← entry (matr s) p;
       Some (v, Store (matr s) (trace s ++ [Rd p])).

(** The assignment [matr[rot[k][0]][rot[k][1]] = v]. *)
Definition assign (rot : list coord) (k : Z) (v : Z) : M unit :=
  λ s, p ← Py.getitem rot k;
       m' ← store_entry (matr s) p v;
       Some ((), Store m' (trace s ++ [Wr p])).

(** ** [rotate_matrix] *)

(** Body of the inner loop: one quartet of the ring. *)
Definition rotate_quartet (rot : list coord) (size i : Z) : M unit :=
  (* upper side *)
  (let! tmp := load rot (i + size) in
   let! v := load rot i in
   assign rot (i + size) v ;;;
   assign rot i tmp ;;;
   (* right side *)
   let! tmp := load rot (i + 2 * size) in
   let! v := load rot i in
   assign rot (i + 2 * size) v ;;;
   assign rot i tmp ;;;
   (* lower side *)
   let! tmp := load rot (i + 3 * size) in
   let! v := load rot i in
   assign rot (i + 3 * size) v ;;;
   assign rot i tmp)%cmd.

(** Body of the outer loop: one ring. *)
Definition rotate_cycle (dim cycle : Z) : M unit :=
  let '(rot, size) := get_cycle cycle dim in
  for_ (Py.range 0 size) (rotate_quartet rot size).

Definition rotate_matrix_cmd : M unit :=
  λ s, let dim := Py.len (matr s) in
       let cycles := Z.quot dim 2 in
       for_ (Py.range 0 cycles) (rotate_cycle dim) s.

(** [rotate_matrix(matr)]: the returned matrix. *)
Definition rotate_matrix (m : matrix) : option matrix :=
  match rotate_matrix_cmd (Store m []) with
  | Some (_, s) => Some (matr s)
  | None => None
  end.

(** The cell accesses of [rotate_matrix(matr)], in program order. *)
Definition rotate_matrix_trace (m : matrix) : option (list event) :=
  match rotate_matrix_cmd (Store m []) with
  | Some (_, s) => Some (trace s)
  | None => None
  end.


(** ** Console input and output *)

(** The exceptions that the functions of the tool can meet. *)
Inductive exn : Type :=
  | SystemExit (msg : string)
  | EOFError
  | IndexError
  | ValueError.

(** The lines still to be read from standard input and the text written
    to standard output so far. *)
Record console : Type := Console { stdin : list string; stdout : string }.

(** A command of the command line tool runs on a console and returns a
    value or raises, and leaves a console. *)
Definition IO (A : Type) : Type := console → (A + exn) * console.

Definition io_ret {A} (x : A) : IO A := λ c, (inl x, c).

Definition io_bind {A B} (m : IO A) (f : A → IO B) : IO B :=
  λ c, match m c with
       | (inl x, c') => f x c'
       | (inr e, c') => (inr e, c')
       end.

Definition raise {A} (e : exn) : IO A := λ c, (inr e, c).

(** [print(s, end=...)], with the text [s] holding the end already. *)
Definition write (s : string) : IO unit :=
  λ c, (inl (), Console (stdin c) (stdout c +:+ s)).

(** [input(prompt)]: the prompt is written, then one line is read; at the
    end of the input [EOFError] is raised. *)
Definition input (prompt : string) : IO string :=
  io_bind (write prompt)
    (λ _ c, match stdin c with
            | line :: rest => (inl line, Console rest (stdout c))
            | [] => (inr EOFError, c)
            end).

(** [sys.exit(msg)] *)
Definition sys_exit {A} (msg : string) : IO A := raise (SystemExit msg).

(** [for x in l: body], threading the local variable [acc]. *)
Fixpoint io_for {A B} (l : list A) (body : B → A → IO B) (acc : B) : IO B :=
  match l with
  | [] => io_ret acc
  | x :: l => io_bind (body acc x) (io_for l body)
  end.

(** ** [create_matrix] *)

Definition only_symmetric : string := "ERROR: Only symmetric matrices allowed.".

Section create.
(** [str.split()] of the Python library, which cuts a line into its
    whitespace-separated words. *)
Context (split : string → list string).

(** Body of the loop of [create_matrix]. *)
Definition create_matrix_line (dim : Z) (matr : list (list string)) (i : Z)
    : IO (list (list string)) :=
  io_bind (input ("Type line " +:+ pretty (i + 1) +:+ ": ")) (λ line,
    let matr := matr ++ [split line] in
    match Py.getitem matr i with
    | None => raise IndexError
    | Some row =>
        if decide (Py.len row ≠ dim) then sys_exit only_symmetric
        else io_ret matr
    end).

Definition create_matrix (dim : Z) : IO (list (list string)) :=
  io_for (Py.range 0 dim) (create_matrix_line dim) [].

End create.

(** ** [print_matrix] *)

(** The characters written as "\t" and "\n" in the source. *)
Definition tab : ascii := "009"%char.
Definition nl : ascii := "010"%char.

(** Number of decimal digits of an integer, its sign apart. *)
Definition digits (n : Z) : Z :=
  Z.of_nat (String.length (pretty (Z.abs n))).

(** [str(n)] of an integer: its decimal numeral, or ValueError when the
    numeral has more digits than the limit [max_str_digits] that the
    interpreter is set to (4300 unless set otherwise; it accepts limits
    from 640 on, and 0, which stands for no limit). *)
Definition py_str (max_str_digits : Z) (n : Z) : IO string :=
  if decide (0 < max_str_digits ∧ max_str_digits < digits n)
  then raise ValueError
  else io_ret (pretty n).

(** [print("\t{}".format(str(entry)), end="")] for each entry of a line,
    then [print("\n")], which writes the newline of its argument and the
    newline that ends a [print]. *)
Definition print_matrix (max_str_digits : Z) (matr : matrix) : IO unit :=
  io_for matr (λ _ line,
    io_bind (io_for line (λ _ entry,
               io_bind (py_str max_str_digits entry)
                       (λ text, write (String tab text))) ())
            (λ _, write (String nl (String nl EmptyString)))) ().




(** ** Shapes *)

(** A [D]-by-[D] matrix: [D] rows of [D] entries each. *)
Definition square (D : Z) (m : matrix) : Prop :=
  Py.len m = D ∧ Forall (λ row, Py.len row = D) m.

Definition in_range (D : Z) (p : coord) : Prop :=
  0 ≤ p.1 < D ∧ 0 ≤ p.2 < D.

Definition event_cell (e : event) : coord :=
  match e with Rd p => p | Wr p => p end.

(** ** Rings *)

(** First and last row (and column) of the ring [cycle] of a matrix of
    dimension [dim], as [get_cycle] computes them. *)
Definition ring_lo (cycle dim : Z) : Z := Z.quot dim 2 - cycle - 1.
Definition ring_hi (cycle dim : Z) : Z := Z.quot dim 2 + odd dim cycle.

(** The four sides of the square with corners [lo] and [hi], each without
    its last corner, clockwise from the top-left corner. *)
Definition upper_side (lo hi : Z) : list coord :=
  (λ k, (lo, lo + k)) <$> seqZ 0 (hi - lo).
Definition right_side (lo hi : Z) : list coord :=
  (λ k, (lo + k, hi)) <$> seqZ 0 (hi - lo).
Definition lower_side (lo hi : Z) : list coord :=
  (λ k, (hi, hi - k)) <$> seqZ 0 (hi - lo).
Definition left_side (lo hi : Z) : list coord :=
  (λ k, (hi - k, lo)) <$> seqZ 0 (hi - lo).

Definition border (lo hi : Z) : list coord :=
  upper_side lo hi ++ right_side lo hi ++ lower_side lo hi ++ left_side lo hi.

(** The cell whose value a quarter turn clockwise brings to [p], in a
    matrix of dimension [D]. *)
Definition unturn (D : Z) (p : coord) : coord := (D - 1 - p.2, p.1).

(** Cell number [i] of side number [side] of the square with corners [lo]
    and [hi]; sides are numbered clockwise from the upper side. *)
Definition ring_cell (lo hi side i : Z) : coord :=
  if decide (side = 0) then (lo, lo + i)
  else if decide (side = 1) then (lo + i, hi)
  else if decide (side = 2) then (hi, hi - i)
  else (hi - i, lo).

(** The cell a quarter turn clockwise brings the value of [p] to. *)
Definition turn (D : Z) (p : coord) : coord := (p.2, D - 1 - p.1).

(** Step from one coordinate of a ring to the next while walking the side
    with number [side]: 0 the upper side (to the right), 1 the right side
    (down), 2 the lower side (to the left), 3 the left side (up). *)
Definition walk_step (side : Z) : coord :=
  if decide (side = 0) then (0, 1)
  else if decide (side = 1) then (1, 0)
  else if decide (side = 2) then (0, -1)
  else (-1, 0).

(** ** Quartets and progress of the rotation *)

(** Cell accesses of one run of the inner loop body on the quartet
    [a], [b], [c], [d], in program order. *)
Definition quartet_trace (a b c d : coord) : list event :=
  [Rd b; Rd a; Wr b; Wr a; Rd c; Rd a; Wr c; Wr a; Rd d; Rd a; Wr d; Wr a].

(** Quartet [i] of the ring with corners [lo] and [hi]. *)
Definition in_quartet (lo hi i : Z) (p : coord) : Prop :=
  p = (lo, lo + i) ∨ p = (lo + i, hi) ∨ p = (hi, hi - i) ∨ p = (hi - i, lo).

(** [p] lies in a quartet that the loops have left behind when the outer
    loop is at [cycle] and the inner loop at [i]. *)
Definition turned (D cycle i : Z) (p : coord) : Prop :=
  ∃ cycle' i',
    0 ≤ cycle' ∧ 0 ≤ i' < ring_hi cycle' D - ring_lo cycle' D ∧
    (cycle' < cycle ∨ (cycle' = cycle ∧ i' < i)) ∧
    in_quartet (ring_lo cycle' D) (ring_hi cycle' D) i' p.

(** State of the store when the outer loop is at [cycle] and the inner
    loop at [i]: the cells of the quartets left behind hold the value of
    the cell a quarter turn before them, all other cells are untouched. *)
Definition rot_inv (D : Z) (m0 : matrix) (cycle i : Z) (s : store) : Prop :=
  square D (matr s) ∧
  concat (matr s) ≡ₚ concat m0 ∧
  Forall (λ e, in_range D (event_cell e)) (trace s) ∧
  ∀ p, in_range D p →
       (turned D cycle i p → entry (matr s) p = entry m0 (unturn D p)) ∧
       (¬ turned D cycle i p → entry (matr s) p = entry m0 p).

(** [p] is a cell of a quartet of one of the rings of the matrix. *)
Definition on_ring (D : Z) (p : coord) : Prop :=
  ∃ cycle i,
    0 ≤ cycle < Z.quot D 2 ∧ 0 ≤ i < ring_hi cycle D - ring_lo cycle D ∧
    in_quartet (ring_lo cycle D) (ring_hi cycle D) i p.

(** Number of quartets the loops have left behind when the outer loop is
    at [cycle] and the inner loop at [i]. *)
Definition quartets_before (D cycle i : Z) : Z :=
  cycle * (cycle + D `mod` 2) + i.

(** What the trace of cell accesses holds at that point. *)
Definition trace_inv (D cycle i : Z) (s : store) : Prop :=
  square D (matr s) ∧
  Py.len (trace s) = 12 * quartets_before D cycle i ∧
  Forall (λ e, on_ring D (event_cell e)) (trace s).

(** The store [s] holds the matrix of [s'], square of dimension [D], with
    the lists [tails] appended to its rows, and the same trace. *)
Definition with_tails (D : Z) (tails : list (list Z)) (s s' : store) : Prop :=
  square D (matr s') ∧
  matr s = zip_with (++) (matr s') tails ∧
  trace s = trace s'.

(** ** The top edge of a ring *)

(** Parity adjustment in the words of the specification:
    1 if D is odd, else 0. *)
Definition parityBump (D : Z) : Z := if decide (D `mod` 2 = 1) then 1 else 0.

(** Top edge in the words of the specification: the pairs (half-c-1, j)
    for j from half-c-1 to half+parityBump inclusive. *)
Definition spec_top_edge (c D : Z) : list coord :=
  let half := D `div` 2 in
  (λ j, (half - c - 1, j)) <$> Py.range (half - c - 1) (half + parityBump D + 1).

(** Top edge as the first loop of [get_cycle] appends it: the column runs
    up to half+c+parityBump inclusive. *)
Definition top_edge (c D : Z) : list coord :=
  let half := D `div` 2 in
  (λ j, (half - c - 1, j))
    <$> Py.range (half - c - 1) (half + c + parityBump D + 1).

(** * Properties of the Python primitives *)

Section primitives.
Context {A : Type}.
Implicit Types l : list A.

Lemma index_in_range n i : 0 ≤ i < n → Py.index n i = Some (Z.to_nat i).
Proof. intros Hi. unfold Py.index. by rewrite decide_True. Qed.

Lemma getitem_in_range l i :
  0 ≤ i < Py.len l → Py.getitem l i = l !! Z.to_nat i.
Proof. intros Hi. unfold Py.getitem. by rewrite index_in_range. Qed.

Lemma setitem_in_range l i v :
  0 ≤ i < Py.len l → Py.setitem l i v = Some (<[Z.to_nat i := v]> l).
Proof. intros Hi. unfold Py.setitem. by rewrite index_in_range. Qed.

Lemma getitem_is_Some l i : 0 ≤ i < Py.len l → is_Some (Py.getitem l i).
Proof.
  intros Hi. rewrite getitem_in_range by done.
  apply lookup_lt_is_Some. unfold Py.len in Hi. lia.
Qed.

Lemma foldl_snoc {B} (f : B → A) (xs : list B) acc :
  foldl (λ acc i, acc ++ [f i]) acc xs = acc ++ (f <$> xs).
Proof.
  revert acc. induction xs as [|x xs IH]; intros acc; simpl.
  - by rewrite app_nil_r.
  - by rewrite IH, <- app_assoc.
Qed.

Lemma fmap_seqZ_shift (f : Z → A) m n :
  f <$> seqZ m n = (λ k, f (m + k)) <$> seqZ 0 n.
Proof.
  rewrite <- (Z.add_0_r m) at 1.
  by rewrite <- fmap_add_seqZ, <- list_fmap_compose.
Qed.

Lemma fmap_seqZ_first (f : Z → A) n :
  0 < n → f <$> seqZ 0 n = f 0 :: ((λ k, f (1 + k)) <$> seqZ 0 (n - 1)).
Proof.
  intros Hn. rewrite seqZ_cons by done. rewrite fmap_cons. f_equal.
  rewrite fmap_seqZ_shift. by replace (Z.pred n) with (n - 1) by lia.
Qed.

Lemma fmap_seqZ_last (f : Z → A) n :
  0 < n → f <$> seqZ 0 n = (f <$> seqZ 0 (n - 1)) ++ [f (n - 1)].
Proof.
  intros Hn. replace n with ((n - 1) + 1) at 1 by lia.
  rewrite seqZ_app by lia. rewrite fmap_app. f_equal.
Qed.

Lemma lookup_fmap_seqZ (f : Z → A) n i :
  0 ≤ i < n → (f <$> seqZ 0 n) !! Z.to_nat i = Some (f i).
Proof.
  intros Hi. rewrite list_lookup_fmap, lookup_seqZ_lt by lia.
  simpl. f_equal. f_equal. lia.
Qed.

End primitives.

(** * Reading and writing cells of a square matrix *)

Section cells.
Context (D : Z).
Implicit Types (m : matrix) (p q : coord) (v x : Z).

Lemma square_len m : square D m → Py.len m = D.
Proof. by intros [? _]. Qed.

Lemma square_row m r row :
  square D m → m !! r = Some row → Py.len row = D.
Proof.
  intros [_ Hrows] Hr. rewrite Forall_lookup in Hrows. by eapply Hrows.
Qed.

Lemma square_nonneg m : square D m → 0 ≤ D.
Proof. intros [<- _]. unfold Py.len. lia. Qed.

Lemma entry_in_range m p :
  square D m → in_range D p →
  entry m p = row ← m !! Z.to_nat p.1; row !! Z.to_nat p.2.
Proof.
  intros Hm [Hr Hc]. unfold entry.
  rewrite getitem_in_range by (by rewrite (square_len m)).
  destruct (m !! Z.to_nat p.1) as [row|] eqn:Hrow; simpl; [|done].
  rewrite getitem_in_range; [done|]. by rewrite (square_row m _ row Hm Hrow).
Qed.

Lemma entry_is_Some m p : square D m → in_range D p → is_Some (entry m p).
Proof.
  intros Hm Hp. rewrite entry_in_range by done. destruct Hp as [Hr Hc].
  pose proof (square_len m Hm) as Hlen. unfold Py.len in Hlen.
  destruct (lookup_lt_is_Some_2 m (Z.to_nat p.1)) as [row Hrow]; [lia|].
  rewrite Hrow. simpl. apply lookup_lt_is_Some.
  pose proof (square_row m _ row Hm Hrow) as Hlen'. unfold Py.len in Hlen'. lia.
Qed.

(** Effect of one assignment [matr[r][c] = v] within bounds: it succeeds,
    keeps the shape, changes that cell only, and trades the old value of
    the cell for [v] in the multiset of entries. *)
Lemma store_entry_spec m p v :
  square D m → in_range D p →
  ∃ m', store_entry m p v = Some m' ∧ square D m' ∧
        entry m' p = Some v ∧
        (∀ q, in_range D q → q ≠ p → entry m' q = entry m q) ∧
        (∀ x, entry m p = Some x → v :: concat m ≡ₚ x :: concat m').
Proof.
  intros Hm Hp.
  pose proof (square_len m Hm) as Hlen.
  destruct Hp as [Hr Hc]. destruct p as [r c]; simpl in *.
  assert (Z.to_nat r < length m)%nat as Hr' by (unfold Py.len in Hlen; lia).
  destruct (lookup_lt_is_Some_2 m (Z.to_nat r) Hr') as [row Hrow].
  pose proof (square_row m _ row Hm Hrow) as Hlenr.
  assert (Z.to_nat c < length row)%nat as Hc' by (unfold Py.len in Hlenr; lia).
  set (row' := <[Z.to_nat c := v]> row).
  set (m' := <[Z.to_nat r := row']> m).
  assert (square D m') as Hm'.
  { split.
    - unfold Py.len, m'. rewrite length_insert. apply Hlen.
    - apply Forall_insert; [apply Hm|].
      unfold Py.len, row'. rewrite length_insert. apply Hlenr. }
  exists m'. split; [|split; [done|split; [|split]]].
  - unfold store_entry. simpl.
    rewrite getitem_in_range by lia. rewrite Hrow. simpl.
    rewrite setitem_in_range by lia. simpl.
    by rewrite setitem_in_range by lia.
  - rewrite entry_in_range by (done || (split; simpl; lia)). simpl.
    unfold m'. rewrite list_lookup_insert_eq by done. simpl.
    unfold row'. by rewrite list_lookup_insert_eq.
  - intros [r2 c2] [Hr2 Hc2] Hne; simpl in *.
    rewrite !entry_in_range by (done || (split; simpl; lia)). simpl.
    unfold m'. destruct (decide (r2 = r)) as [->|Hrne].
    + rewrite list_lookup_insert_eq by done. rewrite Hrow. simpl.
      unfold row'. rewrite list_lookup_insert_ne; [done|].
      intros Heq. apply Hne. f_equal. lia.
    + rewrite list_lookup_insert_ne; [done|]. lia.
  - intros x Hx.
    rewrite entry_in_range in Hx by (done || (split; simpl; lia)).
    simpl in Hx. rewrite Hrow in Hx. simpl in Hx.
    unfold m'. rewrite insert_take_drop by done.
    rewrite <- (take_drop_middle m _ _ Hrow) at 1.
    unfold row'. rewrite insert_take_drop by done.
    rewrite <- (take_drop_middle row _ _ Hx) at 1.
    rewrite !concat_app, !concat_cons.
    rewrite <- !Permutation_middle. simpl.
    rewrite <- !Permutation_middle. apply perm_swap.
Qed.

End cells.

(** * The ring computed by [get_cycle] *)


Lemma fmap_seqZ_ext {A} (f g : Z → A) m n n' :
  n = n' → (∀ k, m ≤ k < m + n → f k = g k) → f <$> seqZ m n = g <$> seqZ m n'.
Proof.
  intros <- Hfg. apply list_eq. intros i.
  rewrite !list_lookup_fmap.
  destruct (seqZ m n !! i) as [k|] eqn:Hk; [|done]. simpl.
  apply lookup_seqZ in Hk. f_equal. apply Hfg. lia.
Qed.

Section sides.
Context (lo hi : Z) (Hlohi : lo < hi).

Lemma upper_edge :
  (λ i, (lo, i)) <$> Py.range lo (hi + 1) = upper_side lo hi ++ [(lo, hi)].
Proof.
  unfold Py.range, upper_side.
  rewrite fmap_seqZ_shift, fmap_seqZ_last by lia.
  f_equal; [apply fmap_seqZ_ext; [lia|done] | do 2 f_equal; lia].
Qed.

Lemma right_edge :
  (λ i, (i, hi)) <$> Py.range (lo + 1) (hi + 1)
  = ((λ k, (lo + (1 + k), hi)) <$> seqZ 0 (hi - lo - 1)) ++ [(hi, hi)].
Proof.
  unfold Py.range.
  rewrite fmap_seqZ_shift, fmap_seqZ_last by lia.
  f_equal; [apply fmap_seqZ_ext; [lia|] | do 2 f_equal; lia].
  intros k _. f_equal. lia.
Qed.

Lemma lower_edge :
  (λ i, (hi, i)) <$> Py.range_down (hi - 1) (lo - 1)
  = ((λ k, (hi, hi - (1 + k))) <$> seqZ 0 (hi - lo - 1)) ++ [(hi, lo)].
Proof.
  unfold Py.range_down. rewrite <- list_fmap_compose.
  rewrite fmap_seqZ_last by lia.
  f_equal; [apply fmap_seqZ_ext; [lia|] | simpl; do 2 f_equal; lia].
  intros k _. simpl. f_equal. lia.
Qed.

Lemma left_edge :
  (λ i, (i, lo)) <$> Py.range_down (hi - 1) lo
  = (λ k, (hi - (1 + k), lo)) <$> seqZ 0 (hi - lo - 1).
Proof.
  unfold Py.range_down. rewrite <- list_fmap_compose.
  apply fmap_seqZ_ext; [lia|]. intros k _. simpl. f_equal. lia.
Qed.

(** The four edges that [get_cycle] appends make up the four sides. *)
Lemma edges_border :
  ((λ i, (lo, i)) <$> Py.range lo (hi + 1))
  ++ ((λ i, (i, hi)) <$> Py.range (lo + 1) (hi + 1))
  ++ ((λ i, (hi, i)) <$> Py.range_down (hi - 1) (lo - 1))
  ++ ((λ i, (i, lo)) <$> Py.range_down (hi - 1) lo)
  = border lo hi.
Proof.
  rewrite upper_edge, right_edge, lower_edge, left_edge.
  unfold border, right_side, lower_side, left_side.
  rewrite (fmap_seqZ_first (λ k, (lo + k, hi))) by lia.
  rewrite (fmap_seqZ_first (λ k, (hi, hi - k))) by lia.
  rewrite (fmap_seqZ_first (λ k, (hi - k, lo))) by lia.
  rewrite !Z.add_0_r, !Z.sub_0_r.
  rewrite <- !app_assoc. simpl. reflexivity.
Qed.

Lemma length_upper_side : length (upper_side lo hi) = Z.to_nat (hi - lo).
Proof. unfold upper_side. by rewrite length_fmap, length_seqZ. Qed.
Lemma length_right_side : length (right_side lo hi) = Z.to_nat (hi - lo).
Proof. unfold right_side. by rewrite length_fmap, length_seqZ. Qed.
Lemma length_lower_side : length (lower_side lo hi) = Z.to_nat (hi - lo).
Proof. unfold lower_side. by rewrite length_fmap, length_seqZ. Qed.
Lemma length_left_side : length (left_side lo hi) = Z.to_nat (hi - lo).
Proof. unfold left_side. by rewrite length_fmap, length_seqZ. Qed.

Lemma length_border : Py.len (border lo hi) = 4 * (hi - lo).
Proof.
  unfold Py.len, border. rewrite !length_app.
  rewrite length_upper_side, length_right_side, length_lower_side,
    length_left_side. lia.
Qed.

(** The four cells of quartet [i], read through Python subscripts. *)
Lemma border_getitem i :
  0 ≤ i < hi - lo →
  Py.getitem (border lo hi) i = Some (lo, lo + i) ∧
  Py.getitem (border lo hi) (i + (hi - lo)) = Some (lo + i, hi) ∧
  Py.getitem (border lo hi) (i + 2 * (hi - lo)) = Some (hi, hi - i) ∧
  Py.getitem (border lo hi) (i + 3 * (hi - lo)) = Some (hi - i, lo).
Proof.
  intros Hi. pose proof length_border as Hlen.
  rewrite !getitem_in_range by lia.
  unfold border. repeat split.
  - rewrite lookup_app_l by (rewrite length_upper_side; lia).
    by apply (lookup_fmap_seqZ (λ k, (lo, lo + k))).
  - rewrite lookup_app_r by (rewrite length_upper_side; lia).
    rewrite length_upper_side.
    rewrite lookup_app_l by (rewrite length_right_side; lia).
    replace (Z.to_nat (i + (hi - lo)) - Z.to_nat (hi - lo))%nat
      with (Z.to_nat i) by lia.
    by apply (lookup_fmap_seqZ (λ k, (lo + k, hi))).
  - rewrite lookup_app_r by (rewrite length_upper_side; lia).
    rewrite length_upper_side.
    rewrite lookup_app_r by (rewrite length_right_side; lia).
    rewrite length_right_side.
    rewrite lookup_app_l by (rewrite length_lower_side; lia).
    replace (Z.to_nat (i + 2 * (hi - lo)) - Z.to_nat (hi - lo)
             - Z.to_nat (hi - lo))%nat with (Z.to_nat i) by lia.
    by apply (lookup_fmap_seqZ (λ k, (hi, hi - k))).
  - rewrite lookup_app_r by (rewrite length_upper_side; lia).
    rewrite length_upper_side.
    rewrite lookup_app_r by (rewrite length_right_side; lia).
    rewrite length_right_side.
    rewrite lookup_app_r by (rewrite length_lower_side; lia).
    rewrite length_lower_side.
    replace (Z.to_nat (i + 3 * (hi - lo)) - Z.to_nat (hi - lo)
             - Z.to_nat (hi - lo) - Z.to_nat (hi - lo))%nat
      with (Z.to_nat i) by lia.
    by apply (lookup_fmap_seqZ (λ k, (hi - k, lo))).
Qed.

End sides.

(** ** Arithmetic of the ring bounds *)

Lemma quot_2 dim : 0 ≤ dim → Z.quot dim 2 = dim `div` 2.
Proof. intros Hd. by apply Z.quot_div_nonneg. Qed.

Lemma ring_size cycle dim :
  ring_hi cycle dim - ring_lo cycle dim = 2 * cycle + 1 + dim `mod` 2.
Proof.
  unfold ring_hi, ring_lo, odd.
  pose proof (Z.mod_pos_bound dim 2). case_decide; lia.
Qed.

Lemma ring_lo_hi cycle dim : 0 ≤ cycle → ring_lo cycle dim < ring_hi cycle dim.
Proof.
  intros Hc. pose proof (ring_size cycle dim).
  pose proof (Z.mod_pos_bound dim 2). lia.
Qed.

Lemma ring_hi_mirror cycle dim :
  0 ≤ dim → ring_hi cycle dim = dim - 1 - ring_lo cycle dim.
Proof.
  intros Hd. pose proof (ring_size cycle dim) as Hsz.
  unfold ring_lo in *. rewrite quot_2 in * by done.
  pose proof (Z.div_mod dim 2). lia.
Qed.

Lemma ring_lo_bounds cycle dim :
  0 ≤ dim → 0 ≤ cycle < Z.quot dim 2 →
  0 ≤ ring_lo cycle dim ∧ ring_hi cycle dim < dim.
Proof.
  intros Hd Hc. pose proof (ring_hi_mirror cycle dim Hd).
  unfold ring_lo in *. lia.
Qed.

(** ** [get_cycle] in closed form *)

Lemma get_cycle_border cycle dim :
  0 ≤ cycle →
  get_cycle cycle dim
  = (border (ring_lo cycle dim) (ring_hi cycle dim),
     ring_hi cycle dim - ring_lo cycle dim).
Proof.
  intros Hc. pose proof (ring_lo_hi cycle dim Hc) as Hlohi.
  unfold get_cycle. rewrite !foldl_snoc. rewrite app_nil_l.
  fold (ring_lo cycle dim) (ring_hi cycle dim).
  replace (Z.quot dim 2 - cycle - 2) with (ring_lo cycle dim - 1)
    by (unfold ring_lo; lia).
  replace (Z.quot dim 2 - cycle) with (ring_lo cycle dim + 1)
    by (unfold ring_lo; lia).
  f_equal.
  - rewrite <- edges_border by done. by rewrite <- !app_assoc.
  - unfold Py.len, Py.range. rewrite length_fmap, length_seqZ. lia.
Qed.

(** * One quartet *)


Section quartet.
Context (D : Z).
Implicit Types (m : matrix) (a b c d p q : coord) (s : store).

(** The exchange [tmp = matr[b]; matr[b] = matr[a]; matr[a] = tmp]. *)
Lemma swap_entries m a b xa xb :
  square D m → in_range D a → in_range D b → a ≠ b →
  entry m a = Some xa → entry m b = Some xb →
  ∃ m1 m2,
    store_entry m b xa = Some m1 ∧ entry m1 a = Some xa ∧
    store_entry m1 a xb = Some m2 ∧ square D m2 ∧
    entry m2 a = Some xb ∧ entry m2 b = Some xa ∧
    (∀ q, in_range D q → q ≠ a → q ≠ b → entry m2 q = entry m q) ∧
    concat m2 ≡ₚ concat m.
Proof.
  intros Hm Ha Hb Hab Hxa Hxb.
  destruct (store_entry_spec D m b xa Hm Hb)
    as (m1 & Hst1 & Hm1 & Hb1 & Hoth1 & Hperm1).
  destruct (store_entry_spec D m1 a xb Hm1 Ha)
    as (m2 & Hst2 & Hm2 & Ha2 & Hoth2 & Hperm2).
  assert (entry m1 a = Some xa) as Ha1 by (by rewrite Hoth1).
  exists m1, m2. split_and!; try done.
  - rewrite Hoth2 by done. done.
  - intros q Hq Hqa Hqb. rewrite Hoth2, Hoth1 by done. done.
  - specialize (Hperm1 _ Hxb). specialize (Hperm2 _ Ha1).
    apply (Permutation_cons_inv (a:=xa)).
    by rewrite <- Hperm2, <- Hperm1.
Qed.

Lemma rotate_quartet_spec rot size i a b c d s :
  Py.getitem rot i = Some a →
  Py.getitem rot (i + size) = Some b →
  Py.getitem rot (i + 2 * size) = Some c →
  Py.getitem rot (i + 3 * size) = Some d →
  in_range D a → in_range D b → in_range D c → in_range D d →
  a ≠ b → a ≠ c → a ≠ d → b ≠ c → b ≠ d → c ≠ d →
  square D (matr s) →
  ∃ m',
    rotate_quartet rot size i s
      = Some ((), Store m' (trace s ++ quartet_trace a b c d)) ∧
    square D m' ∧
    entry m' b = entry (matr s) a ∧
    entry m' c = entry (matr s) b ∧
    entry m' d = entry (matr s) c ∧
    entry m' a = entry (matr s) d ∧
    (∀ q, in_range D q → q ≠ a → q ≠ b → q ≠ c → q ≠ d →
          entry m' q = entry (matr s) q) ∧
    concat m' ≡ₚ concat (matr s).
Proof.
  intros Hga Hgb Hgc Hgd Ha Hb Hc Hd Hab Hac Had Hbc Hbd Hcd Hm.
  destruct s as [m t]; simpl in *.
  destruct (entry_is_Some D m a Hm Ha) as [xa Hxa].
  destruct (entry_is_Some D m b Hm Hb) as [xb Hxb].
  destruct (entry_is_Some D m c Hm Hc) as [xc Hxc].
  destruct (entry_is_Some D m d Hm Hd) as [xd Hxd].
  destruct (swap_entries m a b xa xb) as
    (m1 & m2 & Hs1 & Ha1 & Hs2 & Hm2 & Ha2 & Hb2 & Hoth2 & Hperm2); try done.
  assert (entry m2 c = Some xc) as Hc2 by (by rewrite Hoth2).
  destruct (swap_entries m2 a c xb xc) as
    (m3 & m4 & Hs3 & Ha3 & Hs4 & Hm4 & Ha4 & Hc4 & Hoth4 & Hperm4); try done.
  assert (entry m4 d = Some xd) as Hd4 by (by rewrite Hoth4, Hoth2).
  destruct (swap_entries m4 a d xc xd) as
    (m5 & m6 & Hs5 & Ha5 & Hs6 & Hm6 & Ha6 & Hd6 & Hoth6 & Hperm6); try done.
  exists m6. split; [|split_and!; try done].
  - unfold rotate_quartet, bind, load, assign; simpl.
    rewrite Hgb; simpl. rewrite Hxb; simpl.
    rewrite Hga; simpl. rewrite Hxa; simpl.
    rewrite Hs1; simpl. rewrite Hs2; simpl.
    rewrite Hgc; simpl. rewrite Hc2; simpl. rewrite Ha2; simpl.
    rewrite Hs3; simpl. rewrite Hs4; simpl.
    rewrite Hgd; simpl. rewrite Hd4; simpl. rewrite Ha4; simpl.
    rewrite Hs5; simpl. rewrite Hs6; simpl.
    rewrite <- !app_assoc. reflexivity.
  - rewrite Hoth6, Hoth4 by done. by rewrite Hb2, Hxa.
  - rewrite Hoth6 by done. by rewrite Hc4, Hxb.
  - by rewrite Hd6, Hxc.
  - by rewrite Ha6, Hxd.
  - intros q Hq Hqa Hqb Hqc Hqd. by rewrite Hoth6, Hoth4, Hoth2.
  - by rewrite Hperm6, Hperm4, Hperm2.
Qed.

End quartet.

(** * Loops *)

Lemma for_seqZ_from (I : Z → store → Prop) (body : Z → M unit) (n : nat) :
  ∀ start s,
    I start s →
    (∀ i t, start ≤ i < start + Z.of_nat n → I i t →
            ∃ t', body i t = Some ((), t') ∧ I (i + 1) t') →
    ∃ s', for_ (seqZ start (Z.of_nat n)) body s = Some ((), s') ∧
          I (start + Z.of_nat n) s'.
Proof.
  induction n as [|n IH]; intros start s HI Hbody.
  - exists s. rewrite Z.add_0_r. by rewrite seqZ_nil.
  - rewrite seqZ_cons by lia. simpl for_. unfold bind.
    destruct (Hbody start s) as (t & -> & Ht); [lia|done|].
    replace (Z.pred (Z.of_nat (S n))) with (Z.of_nat n) by lia.
    destruct (IH (Z.succ start) t) as (s' & Hrun & Hs').
    + by replace (Z.succ start) with (start + 1) by lia.
    + intros i u Hi. apply Hbody. lia.
    + exists s'. split; [done|].
      by replace (start + Z.of_nat (S n)) with (Z.succ start + Z.of_nat n) by lia.
Qed.

(** Invariant rule for [for i in range(n)]. *)
Lemma for_range (I : Z → store → Prop) (body : Z → M unit) n s :
  0 ≤ n → I 0 s →
  (∀ i t, 0 ≤ i < n → I i t → ∃ t', body i t = Some ((), t') ∧ I (i + 1) t') →
  ∃ s', for_ (Py.range 0 n) body s = Some ((), s') ∧ I n s'.
Proof.
  intros Hn HI Hbody. unfold Py.range. rewrite Z.sub_0_r.
  destruct (for_seqZ_from I body (Z.to_nat n) 0 s HI) as (s' & Hrun & Hs').
  - intros i t Hi. apply Hbody. lia.
  - rewrite Z2Nat.id in * by done. by exists s'.
Qed.

(** * Quartets and progress of the rotation *)

Lemma ring_bounds_eq D :
  0 ≤ D →
  ∃ h e, D = 2 * h + e ∧ (e = 0 ∨ e = 1) ∧ 0 ≤ h ∧ Z.quot D 2 = h ∧
         ∀ cycle, ring_lo cycle D = h - cycle - 1 ∧
                  ring_hi cycle D = h + cycle + e.
Proof.
  intros HD. exists (D `div` 2), (D `mod` 2).
  pose proof (Z.div_mod D 2). pose proof (Z.mod_pos_bound D 2).
  split_and!; [lia..|by apply quot_2|].
  intros cycle. pose proof (ring_size cycle D).
  unfold ring_lo in *. rewrite quot_2 in * by done. lia.
Qed.

Section progress.
Context (D : Z) (HD : 0 ≤ D).
Implicit Types (p : coord).

Lemma in_quartet_in_range cycle i p :
  0 ≤ cycle < Z.quot D 2 →
  0 ≤ i < ring_hi cycle D - ring_lo cycle D →
  in_quartet (ring_lo cycle D) (ring_hi cycle D) i p → in_range D p.
Proof.
  intros Hc Hi Hp. pose proof (ring_lo_bounds cycle D HD Hc).
  unfold in_range.
  destruct Hp as [-> | [-> | [-> | ->]]]; simpl; lia.
Qed.

(** Quartets do not overlap, neither within a ring nor across rings. *)
Lemma in_quartet_inj cycle i cycle' i' p :
  0 ≤ cycle → 0 ≤ cycle' →
  0 ≤ i < ring_hi cycle D - ring_lo cycle D →
  0 ≤ i' < ring_hi cycle' D - ring_lo cycle' D →
  in_quartet (ring_lo cycle D) (ring_hi cycle D) i p →
  in_quartet (ring_lo cycle' D) (ring_hi cycle' D) i' p →
  cycle = cycle' ∧ i = i'.
Proof.
  intros Hc Hc' Hi Hi' Hp Hp'.
  destruct (ring_bounds_eq D HD) as (h & e & -> & He & Hh & _ & Hring).
  destruct (Hring cycle) as [Hlo Hhi]. destruct (Hring cycle') as [Hlo' Hhi'].
  rewrite Hlo, Hhi in *. rewrite Hlo', Hhi' in *. clear Hring Hlo Hhi Hlo' Hhi'.
  destruct p as [r c].
  destruct Hp as [Hp|[Hp|[Hp|Hp]]], Hp' as [Hp'|[Hp'|[Hp'|Hp']]];
    injection Hp as -> ->; injection Hp' as ? ?; lia.
Qed.

Lemma turned_start p : ¬ turned D 0 0 p.
Proof. intros (k & i & Hk & Hi & Hlt & _). lia. Qed.

Lemma turned_step cycle i p :
  0 ≤ cycle → 0 ≤ i < ring_hi cycle D - ring_lo cycle D →
  turned D cycle (i + 1) p ↔
  turned D cycle i p ∨ in_quartet (ring_lo cycle D) (ring_hi cycle D) i p.
Proof.
  intros Hc Hi. split.
  - intros (k & j & Hk & Hj & Hlt & Hp).
    destruct (decide (k = cycle ∧ j = i)) as [[-> ->] | Hne]; [by right|].
    left. exists k, j. split; [done|split; [done|split; [lia|done]]].
  - intros [(k & j & Hk & Hj & Hlt & Hp)|Hp].
    + exists k, j. split; [done|split; [done|split; [lia|done]]].
    + exists cycle, i. split; [done|split; [done|split; [lia|done]]].
Qed.

Lemma turned_next cycle p :
  turned D cycle (ring_hi cycle D - ring_lo cycle D) p ↔ turned D (cycle + 1) 0 p.
Proof.
  split; intros (k & j & Hk & Hj & Hlt & Hp); exists k, j;
    (split; [done|split; [done|split; [|done]]]).
  - destruct Hlt as [? | [-> ?]]; left; lia.
  - destruct (decide (k = cycle)) as [-> | ?]; [right|left]; lia.
Qed.

Lemma in_quartet_fresh cycle i p :
  0 ≤ cycle → 0 ≤ i < ring_hi cycle D - ring_lo cycle D →
  in_quartet (ring_lo cycle D) (ring_hi cycle D) i p → ¬ turned D cycle i p.
Proof.
  intros Hc Hi Hp (k & j & Hk & Hj & Hlt & Hp').
  destruct (in_quartet_inj cycle i k j p) as [-> ->]; try done. lia.
Qed.

(** Every cell lies in some quartet, except the centre of a matrix of odd
    dimension, which a quarter turn leaves in place. *)
Lemma turned_all p :
  in_range D p →
  turned D (Z.quot D 2) 0 p ∨
  (unturn D p = p ∧ ¬ turned D (Z.quot D 2) 0 p).
Proof.
  intros [Hr Hc]. destruct p as [r c]; simpl in *.
  destruct (ring_bounds_eq D HD) as (h & e & HDeq & He & Hh & Hq & Hring).
  rewrite Hq. unfold turned, in_quartet.
  destruct (decide (r ≤ c ∧ r + c < D - 1)) as [Ha|Hna].
  { left. exists (h - 1 - r), (c - r).
    destruct (Hring (h - 1 - r)) as [-> ->].
    split_and!; [lia..|]. left. f_equal; lia. }
  destruct (decide (D - 1 ≤ r + c ∧ r < c)) as [Hb|Hnb].
  { left. exists (h - 1 - (D - 1 - c)), (r - (D - 1 - c)).
    destruct (Hring (h - 1 - (D - 1 - c))) as [-> ->].
    split_and!; [lia..|]. right; left. f_equal; lia. }
  destruct (decide (c ≤ r ∧ D - 1 < r + c)) as [Hc'|Hnc].
  { left. exists (h - 1 - (D - 1 - r)), (r - c).
    destruct (Hring (h - 1 - (D - 1 - r))) as [-> ->].
    split_and!; [lia..|]. right; right; left. f_equal; lia. }
  destruct (decide (r + c ≤ D - 1 ∧ c < r)) as [Hd|Hnd].
  { left. exists (h - 1 - c), (D - 1 - c - r).
    destruct (Hring (h - 1 - c)) as [-> ->].
    split_and!; [lia..|]. right; right; right. f_equal; lia. }
  right. split; [unfold unturn; simpl; f_equal; lia|].
  intros (k & j & Hk & Hj & _ & Hp). destruct (Hring k) as [Hlo Hhi].
  rewrite Hlo, Hhi in *.
  destruct Hp as [Hp|[Hp|[Hp|Hp]]]; injection Hp as ? ?; lia.
Qed.

End progress.

(** * The rotation loops *)

Section rotation.
Context (D : Z) (m0 : matrix) (Hm0 : square D m0).
Implicit Types (p : coord) (s : store).


Lemma rot_inv_start : rot_inv D m0 0 0 (Store m0 []).
Proof using Hm0.
  split_and!; simpl; try done.
  intros p Hp. split; [|done]. intros Ht. by apply turned_start in Ht.
Qed.

Lemma rot_inv_quartet cycle i s :
  0 ≤ cycle < Z.quot D 2 →
  0 ≤ i < ring_hi cycle D - ring_lo cycle D →
  rot_inv D m0 cycle i s →
  ∃ s', rotate_quartet (border (ring_lo cycle D) (ring_hi cycle D))
          (ring_hi cycle D - ring_lo cycle D) i s = Some ((), s') ∧
        rot_inv D m0 cycle (i + 1) s'.
Proof using Hm0.
  intros Hc Hi (Hsq & Hperm & Htr & Hcells).
  pose proof (square_nonneg D m0 Hm0) as HD.
  pose proof (ring_lo_bounds cycle D HD Hc) as [Hlo Hhi].
  pose proof (ring_hi_mirror cycle D HD) as Hmir.
  assert (ring_lo cycle D < ring_hi cycle D) as Hlohi by lia.
  set (lo := ring_lo cycle D) in *. set (hi := ring_hi cycle D) in *.
  destruct (border_getitem lo hi Hlohi i Hi) as (Hga & Hgb & Hgc & Hgd).
  set (a := (lo, lo + i)) in *. set (b := (lo + i, hi)) in *.
  set (c := (hi, hi - i)) in *. set (d := (hi - i, lo)) in *.
  assert (in_quartet lo hi i a) as Hqa by (by left).
  assert (in_quartet lo hi i b) as Hqb by (by right; left).
  assert (in_quartet lo hi i c) as Hqc by (by right; right; left).
  assert (in_quartet lo hi i d) as Hqd by (by right; right; right).
  assert (∀ p, in_quartet lo hi i p → in_range D p) as Hin.
  { intros p. by apply in_quartet_in_range. }
  assert (∀ p, in_quartet lo hi i p → ¬ turned D cycle i p) as Hfresh.
  { intros p. apply in_quartet_fresh; [done|lia|done]. }
  destruct (rotate_quartet_spec D (border lo hi) (hi - lo) i a b c d s)
    as (m' & Hrun & Hsq' & Hb' & Hc' & Hd' & Ha' & Hoth & Hperm');
    try done; try (by apply Hin);
    try (unfold a, b, c, d; intros [=]; lia).
  eexists. split; [exact Hrun|].
  split_and!; simpl.
  - done.
  - by rewrite Hperm'.
  - apply Forall_app. split; [done|].
    unfold quartet_trace. repeat apply Forall_cons_2; simpl; auto.
  - intros p Hp.
    assert (unturn D b = a ∧ unturn D c = b ∧ unturn D d = c ∧ unturn D a = d)
      as (Hub & Huc & Hud & Hua).
    { unfold unturn, a, b, c, d; simpl. split_and!; f_equal; lia. }
    rewrite turned_step by (done || lia). fold lo hi.
    destruct (decide (p = a)) as [-> | Hpa].
    { split; [|tauto]. intros _. rewrite Ha', Hua.
      by apply Hcells; [apply Hin|apply Hfresh]. }
    destruct (decide (p = b)) as [-> | Hpb].
    { split; [|tauto]. intros _. rewrite Hb', Hub.
      by apply Hcells; [apply Hin|apply Hfresh]. }
    destruct (decide (p = c)) as [-> | Hpc].
    { split; [|tauto]. intros _. rewrite Hc', Huc.
      by apply Hcells; [apply Hin|apply Hfresh]. }
    destruct (decide (p = d)) as [-> | Hpd].
    { split; [|tauto]. intros _. rewrite Hd', Hud.
      by apply Hcells; [apply Hin|apply Hfresh]. }
    rewrite Hoth by done.
    assert (¬ in_quartet lo hi i p) as Hnq.
    { unfold in_quartet. fold a b c d. tauto. }
    split.
    + intros [Ht|Hq]; [by apply Hcells|done].
    + intros Hnt. apply Hcells; [done|tauto].
Qed.

Lemma rot_inv_cycle cycle s :
  0 ≤ cycle < Z.quot D 2 →
  rot_inv D m0 cycle 0 s →
  ∃ s', rotate_cycle D cycle s = Some ((), s') ∧ rot_inv D m0 (cycle + 1) 0 s'.
Proof using Hm0.
  intros Hc Hinv. unfold rotate_cycle.
  rewrite get_cycle_border by lia.
  pose proof (ring_lo_hi cycle D (proj1 Hc)) as Hlohi.
  destruct (for_range (rot_inv D m0 cycle)
              (rotate_quartet (border (ring_lo cycle D) (ring_hi cycle D))
                 (ring_hi cycle D - ring_lo cycle D))
              (ring_hi cycle D - ring_lo cycle D) s) as (s' & Hrun & Hs');
    [lia|done| |].
  - intros i t Hi Ht. by apply rot_inv_quartet.
  - exists s'. split; [done|].
    destruct Hs' as (Hsq & Hperm & Htr & Hcells).
    split_and!; try done.
    intros p Hp. rewrite <- turned_next. by apply Hcells.
Qed.

(** The whole of [rotate_matrix] on a square matrix. *)
Lemma rotate_matrix_cmd_spec :
  ∃ s', rotate_matrix_cmd (Store m0 []) = Some ((), s') ∧
        square D (matr s') ∧
        concat (matr s') ≡ₚ concat m0 ∧
        Forall (λ e, in_range D (event_cell e)) (trace s') ∧
        ∀ p, in_range D p → entry (matr s') p = entry m0 (unturn D p).
Proof using Hm0.
  pose proof (square_nonneg D m0 Hm0) as HD.
  unfold rotate_matrix_cmd. simpl matr. rewrite (square_len D m0 Hm0).
  destruct (for_range (λ cycle, rot_inv D m0 cycle 0) (rotate_cycle D)
              (Z.quot D 2) (Store m0 [])) as (s' & Hrun & Hs').
  - rewrite quot_2 by done. by apply Z.div_pos.
  - apply rot_inv_start.
  - intros cycle t Hc Ht. by apply rot_inv_cycle.
  - exists s'. split; [done|].
    destruct Hs' as (Hsq & Hperm & Htr & Hcells).
    split_and!; try done.
    intros p Hp. destruct (turned_all D HD p Hp) as [Ht|[Hu Hnt]].
    + by apply Hcells.
    + rewrite Hu. by apply Hcells.
Qed.

End rotation.

(** * Cells of a ring *)

Lemma elem_of_border lo hi p :
  p ∈ border lo hi ↔ ∃ i, 0 ≤ i < hi - lo ∧ in_quartet lo hi i p.
Proof.
  unfold border, upper_side, right_side, lower_side, left_side, in_quartet.
  rewrite !elem_of_app, !list_elem_of_fmap.
  setoid_rewrite elem_of_seqZ. naive_solver lia.
Qed.

Lemma NoDup_border lo hi : lo < hi → NoDup (border lo hi).
Proof.
  intros Hlohi. unfold border.
  rewrite !NoDup_app. split_and!.
  - unfold upper_side. apply NoDup_fmap_2_strong; [|apply NoDup_seqZ].
    intros x y _ _ [=]. lia.
  - intros p. unfold upper_side, right_side, lower_side, left_side.
    rewrite !elem_of_app, !list_elem_of_fmap.
    setoid_rewrite elem_of_seqZ. naive_solver lia.
  - unfold right_side. apply NoDup_fmap_2_strong; [|apply NoDup_seqZ].
    intros x y _ _ [=]. lia.
  - intros p. unfold right_side, lower_side, left_side.
    rewrite !elem_of_app, !list_elem_of_fmap.
    setoid_rewrite elem_of_seqZ. naive_solver lia.
  - unfold lower_side. apply NoDup_fmap_2_strong; [|apply NoDup_seqZ].
    intros x y _ _ [=]. lia.
  - intros p. unfold lower_side, left_side.
    rewrite !list_elem_of_fmap.
    setoid_rewrite elem_of_seqZ. naive_solver lia.
  - unfold left_side. apply NoDup_fmap_2_strong; [|apply NoDup_seqZ].
    intros x y _ _ [=]. lia.
Qed.

(** The cells of a ring are those on the square with corners [lo], [hi]. *)
Lemma elem_of_border_square lo hi p :
  lo < hi →
  p ∈ border lo hi ↔
  (lo ≤ p.1 ≤ hi ∧ lo ≤ p.2 ≤ hi) ∧
  (p.1 = lo ∨ p.1 = hi ∨ p.2 = lo ∨ p.2 = hi).
Proof.
  intros Hlohi. rewrite elem_of_border. unfold in_quartet.
  destruct p as [r c]; simpl. split.
  - intros (i & Hi & [[= -> ->]|[[= -> ->]|[[= -> ->]|[= -> ->]]]]); lia.
  - intros [[Hr Hc] Hside].
    destruct (decide (r = lo ∧ c < hi)) as [[-> ?]|?].
    { exists (c - lo). split; [lia|]. left. f_equal; lia. }
    destruct (decide (c = hi ∧ r < hi)) as [[-> ?]|?].
    { exists (r - lo). split; [lia|]. right; left. f_equal; lia. }
    destruct (decide (r = hi ∧ lo < c)) as [[-> ?]|?].
    { exists (hi - c). split; [lia|]. right; right; left. f_equal; lia. }
    exists (hi - r). split; [lia|]. right; right; right. f_equal; lia.
Qed.

(** ** Matrices with the same entries *)

Lemma square_ext D (m1 m2 : matrix) :
  square D m1 → square D m2 →
  (∀ p, in_range D p → entry m1 p = entry m2 p) → m1 = m2.
Proof.
  intros H1 H2 Hent. apply list_eq. intros i.
  pose proof (square_len D m1 H1) as Hl1.
  pose proof (square_len D m2 H2) as Hl2. unfold Py.len in *.
  destruct (decide (i < length m1)%nat) as [Hi|Hi].
  - destruct (lookup_lt_is_Some_2 m1 i Hi) as [r1 Hr1].
    destruct (lookup_lt_is_Some_2 m2 i) as [r2 Hr2]; [lia|].
    rewrite Hr1, Hr2. f_equal. apply list_eq. intros j.
    pose proof (square_row D m1 i r1 H1 Hr1) as Hlr1.
    pose proof (square_row D m2 i r2 H2 Hr2) as Hlr2. unfold Py.len in *.
    destruct (decide (j < length r1)%nat) as [Hj|Hj].
    + specialize (Hent (Z.of_nat i, Z.of_nat j)).
      rewrite !(entry_in_range D) in Hent by (done || (split; simpl; lia)).
      simpl in Hent. rewrite !Nat2Z.id in Hent. rewrite Hr1, Hr2 in Hent.
      apply Hent. split; simpl; lia.
    + rewrite !lookup_ge_None_2; [done|lia..].
  - rewrite !lookup_ge_None_2; [done|lia..].
Qed.

Lemma unturn_in_range D p : in_range D p → in_range D (unturn D p).
Proof. unfold in_range, unturn. simpl. lia. Qed.

Lemma unturn_4 D p : unturn D (unturn D (unturn D (unturn D p))) = p.
Proof. destruct p as [r c]. unfold unturn. simpl. f_equal; lia. Qed.

(** ** [rotate_matrix] as a function on square matrices *)

Lemma rotate_matrix_spec D (m : matrix) :
  square D m →
  ∃ R t, rotate_matrix m = Some R ∧ rotate_matrix_trace m = Some t ∧
         square D R ∧ concat R ≡ₚ concat m ∧
         Forall (λ e, in_range D (event_cell e)) t ∧
         ∀ p, in_range D p → entry R p = entry m (unturn D p).
Proof.
  intros Hm.
  destruct (rotate_matrix_cmd_spec D m Hm) as (s' & Hrun & Hsq & Hperm & Htr & Hent).
  exists (matr s'), (trace s'). unfold rotate_matrix, rotate_matrix_trace.
  by rewrite Hrun.
Qed.

(** * The rotation as a whole *)

(** The enumerated matrix of the command line tool and its rotation. *)
Example generate_matrix_3 :
  generate_matrix 3 = [[1;2;3];[4;5;6];[7;8;9]] ∧
  rotate_matrix (generate_matrix 3) = Some [[7;4;1];[8;5;2];[9;6;3]].
Proof. split; reflexivity. Qed.

(** C1. For every D >= 0 and every D-by-D matrix M, [rotate_matrix M]
    returns a D-by-D matrix that is the 90-degree clockwise rotation of M:
    its entry at row i, column j is M's entry at row D-1-j, column i.  In
    particular [[1,2,3],[4,5,6],[7,8,9]] rotates to
    [[7,4,1],[8,5,2],[9,6,3]] and [[1,2],[3,4]] to [[3,1],[4,2]]. *)
Theorem rotate_matrix_clockwise (D : Z) (M : matrix) (HM : square D M) :
  (∃ R, rotate_matrix M = Some R ∧ square D R ∧
        ∀ i j, 0 ≤ i < D → 0 ≤ j < D →
               entry R (i, j) = entry M (D - 1 - j, i)) ∧
  rotate_matrix [[1;2;3];[4;5;6];[7;8;9]] = Some [[7;4;1];[8;5;2];[9;6;3]] ∧
  rotate_matrix [[1;2];[3;4]] = Some [[3;1];[4;2]].
Proof.
  split; [|split; reflexivity].
  destruct (rotate_matrix_spec D M HM) as (R & t & HR & _ & Hsq & _ & _ & Hent).
  exists R. split_and!; try done.
  intros i j Hi Hj. by apply (Hent (i, j)).
Qed.

Lemma rotate_matrix_clockwise_witness :
  square 3 [[1;2;3];[4;5;6];[7;8;9]] ∧
  ∃ R, rotate_matrix [[1;2;3];[4;5;6];[7;8;9]] = Some R ∧ square 3 R ∧
       ∀ i j, 0 ≤ i < 3 → 0 ≤ j < 3 →
              entry R (i, j) = entry [[1;2;3];[4;5;6];[7;8;9]] (3 - 1 - j, i).
Proof.
  assert (square 3 [[1;2;3];[4;5;6];[7;8;9]]) as H
    by (split; [reflexivity|repeat constructor]).
  split; [exact H|].
  exact (proj1 (rotate_matrix_clockwise 3 [[1;2;3];[4;5;6];[7;8;9]] H)).
Defined.

(** C2. For every D >= 0 and every D-by-D matrix M, four successive
    applications of [rotate_matrix] return M. *)
Theorem rotate_matrix_four_times (D : Z) (M : matrix) (HM : square D M) :
  (R1 ← rotate_matrix M; R2 ← rotate_matrix R1; R3 ← rotate_matrix R2;
   rotate_matrix R3) = Some M.
Proof.
  destruct (rotate_matrix_spec D M HM) as (R1 & ? & -> & _ & H1 & _ & _ & E1).
  destruct (rotate_matrix_spec D R1 H1) as (R2 & ? & HR2 & _ & H2 & _ & _ & E2).
  destruct (rotate_matrix_spec D R2 H2) as (R3 & ? & HR3 & _ & H3 & _ & _ & E3).
  destruct (rotate_matrix_spec D R3 H3) as (R4 & ? & HR4 & _ & H4 & _ & _ & E4).
  simpl. rewrite HR2. simpl. rewrite HR3. simpl. rewrite HR4. f_equal.
  apply (square_ext D); [done..|]. intros p Hp.
  rewrite E4, E3, E2, E1 by auto using unturn_in_range.
  by rewrite unturn_4.
Qed.

Lemma rotate_matrix_four_times_witness :
  square 2 [[1;2];[3;4]] ∧
  (R1 ← rotate_matrix [[1;2];[3;4]]; R2 ← rotate_matrix R1;
   R3 ← rotate_matrix R2; rotate_matrix R3) = Some [[1;2];[3;4]].
Proof.
  assert (square 2 [[1;2];[3;4]]) as H
    by (split; [reflexivity|repeat constructor]).
  split; [exact H|].
  exact (rotate_matrix_four_times 2 [[1;2];[3;4]] H).
Defined.

(** C7, as the code has it.  The rotation is clockwise, so M is the
    90-degree counter-clockwise rotation of [rotate_matrix M]: M's entry at
    row i, column j is the result's entry at row j, column D-1-i. *)
Theorem rotate_matrix_inverts_counter_clockwise
    (D : Z) (M : matrix) (HM : square D M) :
  ∃ R, rotate_matrix M = Some R ∧
       ∀ i j, 0 ≤ i < D → 0 ≤ j < D →
              entry M (i, j) = entry R (j, D - 1 - i).
Proof.
  destruct (rotate_matrix_spec D M HM) as (R & t & HR & _ & Hsq & _ & _ & Hent).
  exists R. split; [done|]. intros i j Hi Hj.
  rewrite Hent by (split; simpl; lia). unfold unturn. simpl.
  do 2 f_equal. lia.
Qed.

Lemma rotate_matrix_inverts_counter_clockwise_witness :
  square 2 [[1;2];[3;4]] ∧
  ∃ R, rotate_matrix [[1;2];[3;4]] = Some R ∧
       ∀ i j, 0 ≤ i < 2 → 0 ≤ j < 2 →
              entry [[1;2];[3;4]] (i, j) = entry R (j, 2 - 1 - i).
Proof.
  assert (square 2 [[1;2];[3;4]]) as H
    by (split; [reflexivity|repeat constructor]).
  split; [exact H|].
  exact (rotate_matrix_inverts_counter_clockwise 2 [[1;2];[3;4]] H).
Defined.

(** C7 as stated fails: on [[1,2],[3,4]] the result has 3 at row 0,
    column 0, where the counter-clockwise rotation has M's entry of row 0,
    column 1, which is 2. *)
Lemma rotate_matrix_not_counter_clockwise :
  square 2 [[1;2];[3;4]] ∧
  ¬ ∃ R, rotate_matrix [[1;2];[3;4]] = Some R ∧
         ∀ i j, 0 ≤ i < 2 → 0 ≤ j < 2 →
                entry R (i, j) = entry [[1;2];[3;4]] (j, 2 - 1 - i).
Proof.
  split; [split; [reflexivity|repeat constructor]|].
  intros (R & HR & Hccw). injection HR as <-.
  specialize (Hccw 0 0). discriminate Hccw; lia.
Qed.

(** C8. A 0-by-0 or 1-by-1 matrix is returned unchanged: there are
    floor(D/2) = 0 rings and no cell is read or written. *)
Theorem rotate_matrix_small (D : Z) (M : matrix)
    (HM : square D M) (HD : D = 0 ∨ D = 1) :
  Z.quot D 2 = 0 ∧ rotate_matrix M = Some M ∧ rotate_matrix_trace M = Some [].
Proof.
  unfold rotate_matrix, rotate_matrix_trace, rotate_matrix_cmd. simpl matr.
  rewrite (square_len D M HM). by destruct HD as [-> | ->].
Qed.

Lemma rotate_matrix_small_witness :
  (square 1 [[7]] ∧ (1 = 0 ∨ 1 = 1)) ∧
  Z.quot 1 2 = 0 ∧ rotate_matrix [[7]] = Some [[7]] ∧
  rotate_matrix_trace [[7]] = Some [].
Proof.
  assert (square 1 [[7]]) as H by (split; [reflexivity|repeat constructor]).
  assert (1 = 0 ∨ 1 = 1) as H1 by (right; reflexivity).
  split; [exact (conj H H1)|].
  exact (rotate_matrix_small 1 [[7]] H H1).
Defined.

(** C10. [rotate_matrix M] has the shape of M and the same multiset of
    entries: the rotation only moves values. *)
Theorem rotate_matrix_shape_multiset (D : Z) (M : matrix) (HM : square D M) :
  ∃ R, rotate_matrix M = Some R ∧ square D R ∧ concat R ≡ₚ concat M.
Proof.
  destruct (rotate_matrix_spec D M HM) as (R & t & HR & _ & Hsq & Hperm & _).
  by exists R.
Qed.

Lemma rotate_matrix_shape_multiset_witness :
  square 2 [[1;2];[3;4]] ∧
  ∃ R, rotate_matrix [[1;2];[3;4]] = Some R ∧ square 2 R ∧
       concat R ≡ₚ concat [[1;2];[3;4]].
Proof.
  assert (square 2 [[1;2];[3;4]]) as H
    by (split; [reflexivity|repeat constructor]).
  split; [exact H|].
  exact (rotate_matrix_shape_multiset 2 [[1;2];[3;4]] H).
Defined.

(** C9. On a well-formed D-by-D matrix [rotate_matrix] runs to completion
    without raising, and every cell it reads or writes has its row and its
    column in [0, D); so have all coordinates [get_cycle] hands it, and
    every subscript of the coordinate list is within the list.  The result
    is a function of the matrix alone. *)
Theorem rotate_matrix_total_in_bounds (D : Z) (M : matrix) (HM : square D M) :
  (∃ R t, rotate_matrix M = Some R ∧ rotate_matrix_trace M = Some t ∧
          Forall (λ e, in_range D (event_cell e)) t) ∧
  (∀ cycle, 0 ≤ cycle < Z.quot (Py.len M) 2 →
     Forall (in_range D) (get_cycle cycle (Py.len M)).1 ∧
     ∀ i, 0 ≤ i < (get_cycle cycle (Py.len M)).2 →
          0 ≤ i ∧
          i + 3 * (get_cycle cycle (Py.len M)).2
            < Py.len (get_cycle cycle (Py.len M)).1).
Proof.
  split.
  - destruct (rotate_matrix_spec D M HM) as (R & t & HR & Ht & _ & _ & Htr & _).
    by exists R, t.
  - rewrite (square_len D M HM). pose proof (square_nonneg D M HM) as HD.
    intros cycle Hc. rewrite get_cycle_border by lia. simpl.
    pose proof (ring_lo_hi cycle D (proj1 Hc)) as Hlohi. split.
    + apply Forall_forall. intros p Hp. apply elem_of_border in Hp.
      destruct Hp as (i & Hi & Hp). by eapply in_quartet_in_range.
    + intros i Hi. rewrite length_border by done. lia.
Qed.

Lemma rotate_matrix_total_in_bounds_witness :
  square 2 [[1;2];[3;4]] ∧
  ∃ R t, rotate_matrix [[1;2];[3;4]] = Some R ∧
         rotate_matrix_trace [[1;2];[3;4]] = Some t ∧
         Forall (λ e, in_range 2 (event_cell e)) t.
Proof.
  assert (square 2 [[1;2];[3;4]]) as H
    by (split; [reflexivity|repeat constructor]).
  split; [exact H|].
  exact (proj1 (rotate_matrix_total_in_bounds 2 [[1;2];[3;4]] H)).
Defined.

(** * The ring decomposition *)

(** Below 2^53 the floating-point quotient is exact. *)
Lemma int_half_small dim :
  - 2 ^ 53 < dim < 2 ^ 53 → int_half dim = Some (Z.quot dim 2).
Proof.
  intros Hdim. unfold int_half. rewrite decide_True; [done|].
  destruct (decide (dim = 0)) as [-> | Hne]; [done|].
  assert (Z.log2 (Z.abs dim) < 53); [|lia].
  apply Z.log2_lt_pow2; lia.
Qed.

Lemma get_cycle_exact_small cycle dim :
  - 2 ^ 53 < dim < 2 ^ 53 →
  get_cycle_exact cycle dim = Some (get_cycle cycle dim).
Proof.
  intros Hdim. unfold get_cycle_exact. by rewrite int_half_small.
Qed.

(** C3 as stated fails: from D = 2^53 + 3 on, [int(dim/2)] is not
    floor(D/2).  For D = 2^53 + 3 it is 2^52 + 2, the ring of cycle 0 has
    its top-left corner in the centre (floor(D/2), floor(D/2)) of the
    matrix, so the rings together hold the centre. *)
Lemma get_cycle_beyond_exact_division :
  0 ≤ 9007199254740995 ∧
  0 ≤ 0 < 9007199254740995 `div` 2 ∧
  9007199254740995 `mod` 2 = 1 ∧
  int_half 9007199254740995 = Some 4503599627370498 ∧
  9007199254740995 `div` 2 = 4503599627370497 ∧
  (∃ rot size,
     get_cycle_exact 0 9007199254740995 = Some (rot, size) ∧
     (9007199254740995 `div` 2, 9007199254740995 `div` 2) ∈ rot) ∧
  ¬ (∀ p, (∃ cycle rot size,
             0 ≤ cycle < 9007199254740995 `div` 2 ∧
             get_cycle_exact cycle 9007199254740995 = Some (rot, size) ∧
             p ∈ rot) ↔
          in_range 9007199254740995 p ∧
          ¬ (9007199254740995 `mod` 2 = 1 ∧
             p = (9007199254740995 `div` 2, 9007199254740995 `div` 2))).
Proof.
  assert (∃ rot size,
            get_cycle_exact 0 9007199254740995 = Some (rot, size) ∧
            (9007199254740995 `div` 2, 9007199254740995 `div` 2) ∈ rot)
    as Hcentre.
  { eexists _, _. split; [vm_compute; reflexivity|].
    apply elem_of_cons. by left. }
  split; [lia|]. split; [done|]. split; [done|]. split; [done|].
  split; [done|]. split; [exact Hcentre|].
  intros Hunion. destruct Hcentre as (rot & size & Hrot & Hin).
  destruct (proj1 (Hunion (9007199254740995 `div` 2,
                           9007199254740995 `div` 2))) as [_ Hnot].
  - exists 0, rot, size. by split_and!.
  - by apply Hnot.
Qed.

(** C3, as the code has it.  For every D with 0 <= D < 2^53 the code
    computes [get_cycle cycle D], and for every cycle in [0, floor(D/2))
    the coordinate list has length 4*size, its coordinates are pairwise
    distinct and lie in [0,D) x [0,D); the lists of distinct cycles are
    disjoint; and the lists of all cycles together hold every cell of the
    matrix except, for odd D, the centre (floor(D/2), floor(D/2)). *)
Theorem get_cycle_ring_decomposition (D : Z) (HDb : 0 ≤ D < 2 ^ 53) :
  (∀ cycle, get_cycle_exact cycle D = Some (get_cycle cycle D)) ∧
  (∀ cycle, 0 ≤ cycle < D `div` 2 →
     Py.len (get_cycle cycle D).1 = 4 * (get_cycle cycle D).2 ∧
     NoDup (get_cycle cycle D).1 ∧
     Forall (in_range D) (get_cycle cycle D).1) ∧
  (∀ c1 c2 p, 0 ≤ c1 < D `div` 2 → 0 ≤ c2 < D `div` 2 → c1 ≠ c2 →
     p ∈ (get_cycle c1 D).1 → p ∉ (get_cycle c2 D).1) ∧
  (∀ p, (∃ cycle, 0 ≤ cycle < D `div` 2 ∧ p ∈ (get_cycle cycle D).1) ↔
        in_range D p ∧ ¬ (D `mod` 2 = 1 ∧ p = (D `div` 2, D `div` 2))).
Proof.
  pose proof (proj1 HDb) as HD.
  rewrite <- (quot_2 D HD). split_and!.
  - intros cycle. apply get_cycle_exact_small. lia.
  - intros cycle Hc. rewrite get_cycle_border by lia. simpl.
    pose proof (ring_lo_hi cycle D (proj1 Hc)) as Hlohi. split_and!.
    + by apply length_border.
    + by apply NoDup_border.
    + apply Forall_forall. intros p Hp. apply elem_of_border in Hp.
      destruct Hp as (i & Hi & Hp). by eapply in_quartet_in_range.
  - intros c1 c2 p Hc1 Hc2 Hne. rewrite !get_cycle_border by lia. simpl.
    rewrite !elem_of_border. intros (i1 & Hi1 & Hp1) (i2 & Hi2 & Hp2).
    destruct (in_quartet_inj D HD c1 i1 c2 i2 p); try done; lia.
  - intros p. split.
    + intros (cycle & Hc & Hp). rewrite get_cycle_border in Hp by lia.
      simpl in Hp. apply elem_of_border in Hp. destruct Hp as (i & Hi & Hp).
      split; [by eapply in_quartet_in_range|].
      intros [Hodd ->].
      destruct (ring_bounds_eq D HD) as (h & e & HDeq & He & Hh & Hq & Hring).
      rewrite Hq in *. destruct (Hring cycle) as [Hlo Hhi].
      rewrite Hlo, Hhi in *. pose proof (Z.div_mod D 2).
      destruct Hp as [Hp|[Hp|[Hp|Hp]]]; injection Hp as ? ?; lia.
    + intros [Hp Hcentre].
      destruct (turned_all D HD p Hp) as [Ht|[Hu _]].
      * destruct Ht as (cycle & i & Hc & Hi & Hlt & Hq).
        exists cycle. split; [lia|].
        rewrite get_cycle_border by lia. simpl. apply elem_of_border. eauto.
      * exfalso. apply Hcentre. destruct p as [r c].
        unfold unturn in Hu. simpl in Hu. injection Hu as Hu1 Hu2.
        destruct Hp as [Hr Hc]. simpl in *.
        rewrite quot_2 by done.
        pose proof (Z.div_mod D 2). pose proof (Z.mod_pos_bound D 2).
        split; [lia|]. f_equal; lia.
Qed.

Lemma get_cycle_ring_decomposition_witness :
  0 ≤ 5 < 2 ^ 53 ∧
  (∀ cycle, get_cycle_exact cycle 5 = Some (get_cycle cycle 5)) ∧
  (∀ cycle, 0 ≤ cycle < 5 `div` 2 →
     Py.len (get_cycle cycle 5).1 = 4 * (get_cycle cycle 5).2 ∧
     NoDup (get_cycle cycle 5).1 ∧
     Forall (in_range 5) (get_cycle cycle 5).1).
Proof.
  assert (0 ≤ 5 < 2 ^ 53) as H by (split; [lia|reflexivity]).
  split; [exact H|].
  exact (conj (proj1 (get_cycle_ring_decomposition 5 H))
              (proj1 (proj2 (get_cycle_ring_decomposition 5 H)))).
Defined.

(** * Which ring is which, and its top edge *)


Lemma odd_parityBump D c : odd D c = c + parityBump D.
Proof.
  unfold odd, parityBump. pose proof (Z.mod_pos_bound D 2).
  repeat case_decide; lia.
Qed.

(** C4 as stated fails: for D = 4, [get_cycle 0 4] is the innermost
    border, the four cells around the centre, and its size is 1, not
    D - 2*0 - 1 = 3. *)
Lemma get_cycle_0_not_outermost :
  1 ≤ 4 ∧ 0 ≤ 0 < 4 `div` 2 ∧
  get_cycle 0 4 = ([(1, 1); (1, 2); (2, 2); (2, 1)], 1) ∧
  (get_cycle 0 4).2 ≠ 4 - 2 * 0 - 1.
Proof. split_and!; [lia|done|done|reflexivity|done]. Qed.

(** C4, as the code has it.  For every D with 1 <= D < 2^53 and every
    cycle in [0, floor(D/2)), the code computes [get_cycle cycle D], which
    is the cycle'th square border
    counting outward from the centre, that is the border at depth
    floor(D/2)-1-cycle from the outer edge, and its size is
    2*cycle + 1 + (D mod 2) = D - 2*depth - 1; in particular
    [get_cycle (floor(D/2)-1) D] is the outermost border, of size D - 1. *)
Theorem get_cycle_counts_from_centre (D cycle : Z)
    (HD : 1 ≤ D < 2 ^ 53) (Hc : 0 ≤ cycle < D `div` 2) :
  let depth := D `div` 2 - 1 - cycle in
  get_cycle_exact cycle D = Some (get_cycle cycle D) ∧
  (get_cycle cycle D).2 = 2 * cycle + 1 + D `mod` 2 ∧
  (get_cycle cycle D).2 = D - 2 * depth - 1 ∧
  (∀ p, p ∈ (get_cycle cycle D).1 ↔
        (depth ≤ p.1 ≤ D - 1 - depth ∧ depth ≤ p.2 ≤ D - 1 - depth) ∧
        (p.1 = depth ∨ p.1 = D - 1 - depth ∨
         p.2 = depth ∨ p.2 = D - 1 - depth)) ∧
  (cycle = D `div` 2 - 1 → depth = 0 ∧ (get_cycle cycle D).2 = D - 1).
Proof.
  intros depth. split; [apply get_cycle_exact_small; lia|].
  rewrite get_cycle_border by lia. simpl.
  pose proof (ring_size cycle D) as Hsz.
  pose proof (ring_hi_mirror cycle D) as Hmir.
  pose proof (ring_lo_hi cycle D (proj1 Hc)) as Hlohi.
  assert (ring_lo cycle D = depth) as Hlo.
  { unfold ring_lo, depth. rewrite quot_2 by lia. lia. }
  pose proof (Z.div_mod D 2). pose proof (Z.mod_pos_bound D 2).
  split_and!; [lia..| |lia].
  intros p. rewrite elem_of_border_square by done.
  rewrite Hmir, Hlo by lia. done.
Qed.

Lemma get_cycle_counts_from_centre_witness :
  (1 ≤ 4 < 2 ^ 53 ∧ 0 ≤ 1 < 4 `div` 2) ∧
  get_cycle_exact 1 4 = Some (get_cycle 1 4) ∧
  (get_cycle 1 4).2 = 2 * 1 + 1 + 4 `mod` 2 ∧
  (get_cycle 1 4).2 = 4 - 2 * (4 `div` 2 - 1 - 1) - 1.
Proof.
  assert (1 ≤ 4 < 2 ^ 53) as H1 by (split; [lia|reflexivity]).
  assert (0 ≤ 1 < 4 `div` 2) as H2 by (change (4 `div` 2) with 2; lia).
  split; [exact (conj H1 H2)|].
  pose proof (get_cycle_counts_from_centre 4 1 H1 H2) as H.
  exact (conj (proj1 H) (conj (proj1 (proj2 H)) (proj1 (proj2 (proj2 H))))).
Defined.

(** C5 as stated fails: for D = 4 and c = 1 the top edge of the
    specification stops at column half+parityBump = 2 and has length 3,
    while [get_cycle 1 4] returns size 3, not 2. *)
Lemma get_cycle_top_edge_spec_fails :
  1 ≤ 4 ∧ 0 ≤ 1 < 4 `div` 2 ∧
  spec_top_edge 1 4 = [(0, 0); (0, 1); (0, 2)] ∧
  (get_cycle 1 4).2 = 3 ∧
  (get_cycle 1 4).2 ≠ Py.len (spec_top_edge 1 4) - 1.
Proof. split_and!; [lia|done|done|reflexivity|reflexivity|done]. Qed.

(** C5, as the code has it.  For every D with 1 <= D < 2^53 and every
    cycle c in [0, floor(D/2)), the code computes [get_cycle c D], whose
    coordinate list begins with
    the top edge, the pairs (half-c-1, j) for j from half-c-1 to
    half+c+parityBump inclusive, and the size is the length of that edge
    minus 1. *)
Theorem get_cycle_top_edge (D c : Z)
    (HD : 1 ≤ D < 2 ^ 53) (Hc : 0 ≤ c < D `div` 2) :
  get_cycle_exact c D = Some (get_cycle c D) ∧
  top_edge c D `prefix_of` (get_cycle c D).1 ∧
  (get_cycle c D).2 = Py.len (top_edge c D) - 1.
Proof.
  split; [apply get_cycle_exact_small; lia|].
  unfold get_cycle, top_edge. rewrite !foldl_snoc, app_nil_l. simpl.
  rewrite quot_2 by lia. rewrite odd_parityBump.
  replace (D `div` 2 + (c + parityBump D) + 1)
    with (D `div` 2 + c + parityBump D + 1) by lia.
  split; [|done]. rewrite <- !app_assoc. by eexists.
Qed.

Lemma get_cycle_top_edge_witness :
  (1 ≤ 4 < 2 ^ 53 ∧ 0 ≤ 1 < 4 `div` 2) ∧
  get_cycle_exact 1 4 = Some (get_cycle 1 4) ∧
  top_edge 1 4 `prefix_of` (get_cycle 1 4).1 ∧
  (get_cycle 1 4).2 = Py.len (top_edge 1 4) - 1.
Proof.
  assert (1 ≤ 4 < 2 ^ 53) as H1 by (split; [lia|reflexivity]).
  assert (0 ≤ 1 < 4 `div` 2) as H2 by (change (4 `div` 2) with 2; lia).
  split; [exact (conj H1 H2)|].
  exact (get_cycle_top_edge 4 1 H1 H2).
Defined.

(** * The rotation step on a quartet of a ring *)

(** The four cells that the inner loop addresses at index [i] of a ring. *)
Lemma ring_quartet D cycle i :
  0 ≤ D → 0 ≤ cycle < Z.quot D 2 →
  0 ≤ i < ring_hi cycle D - ring_lo cycle D →
  let lo := ring_lo cycle D in
  let hi := ring_hi cycle D in
  let S := border lo hi in
  let n := hi - lo in
  Py.getitem S i = Some (lo, lo + i) ∧
  Py.getitem S (i + n) = Some (lo + i, hi) ∧
  Py.getitem S (i + 2 * n) = Some (hi, hi - i) ∧
  Py.getitem S (i + 3 * n) = Some (hi - i, lo) ∧
  Forall (in_range D) [(lo, lo + i); (lo + i, hi); (hi, hi - i); (hi - i, lo)] ∧
  NoDup [(lo, lo + i); (lo + i, hi); (hi, hi - i); (hi - i, lo)].
Proof.
  intros HD Hc Hi lo hi S n.
  pose proof (ring_lo_bounds cycle D HD Hc) as [Hlo Hhi].
  pose proof (ring_lo_hi cycle D (proj1 Hc)) as Hlohi.
  fold lo hi in Hi, Hlo, Hhi, Hlohi.
  destruct (border_getitem lo hi Hlohi i Hi) as (Hga & Hgb & Hgc & Hgd).
  split_and!; try done.
  - repeat apply Forall_cons_2; try apply Forall_nil_2;
      unfold in_range; simpl; lia.
  - rewrite !NoDup_cons, !not_elem_of_cons.
    split_and!; try (intros [=]; lia);
      first [apply not_elem_of_nil | apply NoDup_nil_2].
Qed.

(** C6. For the ring S, n of any cycle and every i in [0, n), with
    a = S[i], b = S[i+n], c = S[i+2n], d = S[i+3n], the loop body of
    [rotate_matrix] succeeds and leaves new[b] = old[a], new[c] = old[b],
    new[d] = old[c], new[a] = old[d] and every other cell as it was.  It
    works on the matrix alone, with the one value [tmp] carried between
    statements, and its last access is the write to a.  A quartet holding
    (1,2,3,4) at (a,b,c,d) holds (4,1,2,3) afterwards. *)
Theorem rotate_quartet_four_cycle
    (D cycle i : Z) (M : matrix) (tr : list event)
    (HM : square D M) (Hc : 0 ≤ cycle < D `div` 2)
    (Hi : 0 ≤ i < (get_cycle cycle D).2) :
  let S := (get_cycle cycle D).1 in
  let n := (get_cycle cycle D).2 in
  ∃ a b c d M',
    Py.getitem S i = Some a ∧ Py.getitem S (i + n) = Some b ∧
    Py.getitem S (i + 2 * n) = Some c ∧ Py.getitem S (i + 3 * n) = Some d ∧
    Forall (in_range D) [a; b; c; d] ∧ NoDup [a; b; c; d] ∧
    rotate_quartet S n i (Store M tr)
      = Some ((), Store M' (tr ++ quartet_trace a b c d)) ∧
    last (quartet_trace a b c d) = Some (Wr a) ∧
    square D M' ∧
    entry M' b = entry M a ∧ entry M' c = entry M b ∧
    entry M' d = entry M c ∧ entry M' a = entry M d ∧
    (∀ q, in_range D q → q ∉ [a; b; c; d] → entry M' q = entry M q) ∧
    (entry M a = Some 1 → entry M b = Some 2 →
     entry M c = Some 3 → entry M d = Some 4 →
     entry M' a = Some 4 ∧ entry M' b = Some 1 ∧
     entry M' c = Some 2 ∧ entry M' d = Some 3).
Proof.
  pose proof (square_nonneg D M HM) as HD.
  rewrite <- quot_2 in Hc by done.
  rewrite get_cycle_border in * by lia. simpl in *.
  destruct (ring_quartet D cycle i HD Hc Hi)
    as (Hga & Hgb & Hgc & Hgd & Hin & Hnd).
  set (lo := ring_lo cycle D) in *. set (hi := ring_hi cycle D) in *.
  set (a := (lo, lo + i)) in *. set (b := (lo + i, hi)) in *.
  set (c := (hi, hi - i)) in *. set (d := (hi - i, lo)) in *.
  pose proof Hin as Hin'. pose proof Hnd as Hnd'.
  rewrite !Forall_cons in Hin'. destruct Hin' as (Ha & Hb & Hc' & Hd & _).
  rewrite !NoDup_cons, !not_elem_of_cons in Hnd'.
  destruct Hnd' as ((Hab & Hac & Had & _) & (Hbc & Hbd & _) & (Hcd & _) & _).
  destruct (rotate_quartet_spec D (border lo hi) (hi - lo) i a b c d
              (Store M tr))
    as (M' & Hrun & Hsq' & Hb' & Hc'' & Hd' & Ha' & Hoth & _); try done.
  simpl in *. exists a, b, c, d, M'. split_and!; try done.
  - intros q Hq Hnq. rewrite !not_elem_of_cons in Hnq.
    apply Hoth; tauto.
  - intros H1 H2 H3 H4. by rewrite Ha', Hb', Hc'', Hd'.
Qed.

Lemma rotate_quartet_four_cycle_witness :
  (square 2 [[1;2];[4;3]] ∧ 0 ≤ 0 < 2 `div` 2 ∧ 0 ≤ 0 < (get_cycle 0 2).2) ∧
  ∃ a b c d M',
    Py.getitem (get_cycle 0 2).1 0 = Some a ∧
    Py.getitem (get_cycle 0 2).1 (0 + (get_cycle 0 2).2) = Some b ∧
    Py.getitem (get_cycle 0 2).1 (0 + 2 * (get_cycle 0 2).2) = Some c ∧
    Py.getitem (get_cycle 0 2).1 (0 + 3 * (get_cycle 0 2).2) = Some d ∧
    Forall (in_range 2) [a; b; c; d] ∧ NoDup [a; b; c; d] ∧
    rotate_quartet (get_cycle 0 2).1 (get_cycle 0 2).2 0 (Store [[1;2];[4;3]] [])
      = Some ((), Store M' ([] ++ quartet_trace a b c d)) ∧
    last (quartet_trace a b c d) = Some (Wr a) ∧
    square 2 M' ∧
    entry M' b = entry [[1;2];[4;3]] a ∧ entry M' c = entry [[1;2];[4;3]] b ∧
    entry M' d = entry [[1;2];[4;3]] c ∧ entry M' a = entry [[1;2];[4;3]] d ∧
    (∀ q, in_range 2 q → q ∉ [a; b; c; d] →
          entry M' q = entry [[1;2];[4;3]] q) ∧
    (entry [[1;2];[4;3]] a = Some 1 → entry [[1;2];[4;3]] b = Some 2 →
     entry [[1;2];[4;3]] c = Some 3 → entry [[1;2];[4;3]] d = Some 4 →
     entry M' a = Some 4 ∧ entry M' b = Some 1 ∧
     entry M' c = Some 2 ∧ entry M' d = Some 3).
Proof.
  assert (square 2 [[1;2];[4;3]]) as H
    by (split; [reflexivity|repeat constructor]).
  assert (0 ≤ 0 < 2 `div` 2) as H1 by (change (2 `div` 2) with 1; lia).
  assert (0 ≤ 0 < (get_cycle 0 2).2) as H2
    by (change ((get_cycle 0 2).2) with 1; lia).
  split; [exact (conj H (conj H1 H2))|].
  exact (rotate_quartet_four_cycle 2 0 0 [[1;2];[4;3]] [] H H1 H2).
Defined.

(** The quartet of the 2-by-2 matrix holding 1, 2, 3, 4 clockwise. *)
Example rotate_quartet_1234 :
  rotate_quartet (get_cycle 0 2).1 (get_cycle 0 2).2 0 (Store [[1;2];[4;3]] [])
  = Some ((), Store [[4;1];[3;2]]
                (quartet_trace (0, 0) (0, 1) (1, 1) (1, 0))).
Proof. reflexivity. Qed.

(** * Further properties *)

(** ** [generate_matrix] *)

Lemma generate_matrix_rows dim :
  generate_matrix dim = (λ i, seqZ (i * dim + 1) dim) <$> seqZ 0 dim.
Proof.
  unfold generate_matrix. rewrite foldl_snoc, app_nil_l. unfold Py.range.
  rewrite Z.sub_0_r. apply fmap_seqZ_ext; [done|]. intros i _. f_equal; lia.
Qed.

Lemma generate_matrix_square dim : 0 ≤ dim → square dim (generate_matrix dim).
Proof.
  intros Hd. rewrite generate_matrix_rows. split.
  - unfold Py.len. rewrite length_fmap, length_seqZ. lia.
  - apply Forall_fmap, Forall_forall. intros i _. simpl.
    unfold Py.len. rewrite length_seqZ. lia.
Qed.

Lemma generate_matrix_entry dim i j :
  0 ≤ i < dim → 0 ≤ j < dim →
  entry (generate_matrix dim) (i, j) = Some (i * dim + j + 1).
Proof.
  intros Hi Hj.
  rewrite (entry_in_range dim)
    by (apply generate_matrix_square || split; simpl; lia).
  simpl. rewrite generate_matrix_rows.
  rewrite (lookup_fmap_seqZ (λ i, seqZ (i * dim + 1) dim)) by done. simpl.
  rewrite <- (Z2Nat.id j) at 2 by lia.
  rewrite lookup_seqZ_lt by lia. f_equal. lia.
Qed.

Lemma concat_fmap_seqZ_rows d (n : nat) :
  0 ≤ d →
  concat ((λ i, seqZ (i * d + 1) d) <$> seqZ 0 (Z.of_nat n))
  = seqZ 1 (Z.of_nat n * d).
Proof.
  intros Hd. induction n as [|n IH].
  - reflexivity.
  - rewrite seqZ_S, fmap_app, concat_app, IH. simpl.
    rewrite app_nil_r.
    replace (Z.of_nat (S n) * d) with (Z.of_nat n * d + d) by lia.
    rewrite seqZ_app by lia. do 2 f_equal. lia.
Qed.

(** X1. For dim >= 0, [generate_matrix dim] is a dim-by-dim matrix whose
    entry at row i, column j is i*dim + j + 1. *)
Theorem generate_matrix_entries (dim : Z) (Hdim : 0 ≤ dim) :
  square dim (generate_matrix dim) ∧
  ∀ i j, 0 ≤ i < dim → 0 ≤ j < dim →
         entry (generate_matrix dim) (i, j) = Some (i * dim + j + 1).
Proof.
  split; [by apply generate_matrix_square|].
  intros i j. apply generate_matrix_entry.
Qed.

Lemma generate_matrix_entries_witness :
  0 ≤ 3 ∧ square 3 (generate_matrix 3) ∧
  ∀ i j, 0 ≤ i < 3 → 0 ≤ j < 3 →
         entry (generate_matrix 3) (i, j) = Some (i * 3 + j + 1).
Proof.
  assert (0 ≤ 3) as H by lia.
  split; [exact H|]. exact (generate_matrix_entries 3 H).
Defined.

(** X2. Read row by row, [generate_matrix dim] enumerates 1, 2, ..., dim²
    for dim >= 0; for dim <= 0 it is the empty matrix. *)
Theorem generate_matrix_enumerates (dim : Z) :
  (0 ≤ dim → concat (generate_matrix dim) = Py.range 1 (dim * dim + 1)) ∧
  (dim ≤ 0 → generate_matrix dim = []).
Proof.
  rewrite generate_matrix_rows. split.
  - intros Hd.
    replace (seqZ 0 dim) with (seqZ 0 (Z.of_nat (Z.to_nat dim)))
      by (f_equal; lia).
    rewrite concat_fmap_seqZ_rows by done. unfold Py.range.
    f_equal. lia.
  - intros Hd. by rewrite (seqZ_nil 0 dim).
Qed.

Lemma generate_matrix_enumerates_witness :
  0 ≤ 3 ∧ concat (generate_matrix 3) = Py.range 1 (3 * 3 + 1).
Proof.
  assert (0 ≤ 3) as H by lia.
  split; [exact H|]. exact (proj1 (generate_matrix_enumerates 3) H).
Defined.

(** X3. Rotating the enumerated matrix: for dim >= 0,
    [rotate_matrix (generate_matrix dim)] is the dim-by-dim matrix whose
    entry at row i, column j is (dim-1-j)*dim + i + 1, so its first row
    reads dim²-dim+1, ..., dim+1, 1. *)
Theorem rotate_generate_matrix (dim : Z) (Hdim : 0 ≤ dim) :
  ∃ R, rotate_matrix (generate_matrix dim) = Some R ∧ square dim R ∧
       ∀ i j, 0 ≤ i < dim → 0 ≤ j < dim →
              entry R (i, j) = Some ((dim - 1 - j) * dim + i + 1).
Proof.
  destruct (rotate_matrix_spec dim (generate_matrix dim))
    as (R & t & HR & _ & Hsq & _ & _ & Hent);
    [by apply generate_matrix_square|].
  exists R. split_and!; try done. intros i j Hi Hj.
  rewrite Hent by (split; simpl; lia). unfold unturn. simpl.
  apply generate_matrix_entry; lia.
Qed.

Lemma rotate_generate_matrix_witness :
  0 ≤ 4 ∧
  ∃ R, rotate_matrix (generate_matrix 4) = Some R ∧ square 4 R ∧
       ∀ i j, 0 ≤ i < 4 → 0 ≤ j < 4 →
              entry R (i, j) = Some ((4 - 1 - j) * 4 + i + 1).
Proof.
  assert (0 ≤ 4) as H by lia.
  split; [exact H|]. exact (rotate_generate_matrix 4 H).
Defined.

(** ** Rotating more than once *)

(** X4. Two rotations turn the matrix by 180 degrees: the entry at row i,
    column j of the result is M's entry at row D-1-i, column D-1-j. *)
Theorem rotate_matrix_twice (D : Z) (M : matrix) (HM : square D M) :
  ∃ R, (R1 ← rotate_matrix M; rotate_matrix R1) = Some R ∧ square D R ∧
       ∀ i j, 0 ≤ i < D → 0 ≤ j < D →
              entry R (i, j) = entry M (D - 1 - i, D - 1 - j).
Proof.
  destruct (rotate_matrix_spec D M HM) as (R1 & ? & -> & _ & H1 & _ & _ & E1).
  destruct (rotate_matrix_spec D R1 H1) as (R2 & ? & HR2 & _ & H2 & _ & _ & E2).
  exists R2. split_and!; try done. intros i j Hi Hj.
  rewrite E2, E1 by (unfold unturn, in_range; simpl; lia). done.
Qed.

Lemma rotate_matrix_twice_witness :
  square 2 [[1;2];[3;4]] ∧
  ∃ R, (R1 ← rotate_matrix [[1;2];[3;4]]; rotate_matrix R1) = Some R ∧
       square 2 R ∧
       ∀ i j, 0 ≤ i < 2 → 0 ≤ j < 2 →
              entry R (i, j) = entry [[1;2];[3;4]] (2 - 1 - i, 2 - 1 - j).
Proof.
  assert (square 2 [[1;2];[3;4]]) as H
    by (split; [reflexivity|repeat constructor]).
  split; [exact H|]. exact (rotate_matrix_twice 2 [[1;2];[3;4]] H).
Defined.

(** X5. Three rotations are the 90-degree counter-clockwise rotation: the
    entry at row i, column j of the result is M's entry at row j,
    column D-1-i. *)
Theorem rotate_matrix_thrice (D : Z) (M : matrix) (HM : square D M) :
  ∃ R, (R1 ← rotate_matrix M; R2 ← rotate_matrix R1; rotate_matrix R2)
       = Some R ∧ square D R ∧
       ∀ i j, 0 ≤ i < D → 0 ≤ j < D →
              entry R (i, j) = entry M (j, D - 1 - i).
Proof.
  destruct (rotate_matrix_spec D M HM) as (R1 & ? & -> & _ & H1 & _ & _ & E1).
  destruct (rotate_matrix_spec D R1 H1) as (R2 & ? & HR2 & _ & H2 & _ & _ & E2).
  destruct (rotate_matrix_spec D R2 H2) as (R3 & ? & HR3 & _ & H3 & _ & _ & E3).
  exists R3. simpl. rewrite HR2. simpl. split_and!; try done.
  intros i j Hi Hj.
  rewrite E3, E2, E1 by (unfold unturn, in_range; simpl; lia).
  unfold unturn. simpl. do 2 f_equal. lia.
Qed.

Lemma rotate_matrix_thrice_witness :
  square 2 [[1;2];[3;4]] ∧
  ∃ R, (R1 ← rotate_matrix [[1;2];[3;4]]; R2 ← rotate_matrix R1;
        rotate_matrix R2) = Some R ∧ square 2 R ∧
       ∀ i j, 0 ≤ i < 2 → 0 ≤ j < 2 →
              entry R (i, j) = entry [[1;2];[3;4]] (j, 2 - 1 - i).
Proof.
  assert (square 2 [[1;2];[3;4]]) as H
    by (split; [reflexivity|repeat constructor]).
  split; [exact H|]. exact (rotate_matrix_thrice 2 [[1;2];[3;4]] H).
Defined.

(** ** The order of the coordinates of a ring *)

Lemma border_getitem_side lo hi side i :
  lo < hi → 0 ≤ side < 4 → 0 ≤ i < hi - lo →
  Py.getitem (border lo hi) (side * (hi - lo) + i)
  = Some (ring_cell lo hi side i).
Proof.
  intros Hlohi Hside Hi.
  destruct (border_getitem lo hi Hlohi i Hi) as (H0 & H1 & H2 & H3).
  unfold ring_cell.
  assert (side = 0 ∨ side = 1 ∨ side = 2 ∨ side = 3)
    as [-> | [-> | [-> | ->]]] by lia; simpl.
  - by rewrite Z.add_0_l.
  - by replace (1 * (hi - lo) + i) with (i + (hi - lo)) by lia.
  - by replace (2 * (hi - lo) + i) with (i + 2 * (hi - lo)) by lia.
  - by replace (3 * (hi - lo) + i) with (i + 3 * (hi - lo)) by lia.
Qed.

Lemma border_getitem_0 lo hi :
  lo < hi → Py.getitem (border lo hi) 0 = Some (lo, lo).
Proof.
  intros Hlohi.
  destruct (border_getitem lo hi Hlohi 0) as (H0 & _); [lia|].
  by rewrite Z.add_0_r in H0.
Qed.

(** Side and offset of the position [k] of a ring of size [n]. *)
Lemma ring_position n k :
  0 < n → 0 ≤ k < 4 * n →
  ∃ side i, 0 ≤ side < 4 ∧ 0 ≤ i < n ∧ k = side * n + i ∧ k `div` n = side.
Proof.
  intros Hn Hk. exists (k `div` n), (k `mod` n).
  pose proof (Z.div_mod k n). pose proof (Z.mod_pos_bound k n).
  assert (0 ≤ k `div` n) by (apply Z.div_pos; lia).
  assert (k `div` n < 4) by (apply Z.div_lt_upper_bound; lia).
  split_and!; lia.
Qed.

(** X6. For a dimension below 2^53 in absolute value and cycle >= 0, the
    code computes [get_cycle cycle dim], and its coordinate list is a
    closed clockwise walk around the ring that starts in its top-left corner: each coordinate is
    one cell away from the one before it, to the right along the upper
    side (positions below size), down the right side, to the left along
    the lower side and up the left side, and the cell after the last one
    is the first. *)
Theorem get_cycle_walk (cycle dim k : Z)
    (Hdim : - 2 ^ 53 < dim < 2 ^ 53)
    (Hc : 0 ≤ cycle) (Hk : 0 ≤ k < 4 * (get_cycle cycle dim).2) :
  let S := (get_cycle cycle dim).1 in
  let n := (get_cycle cycle dim).2 in
  get_cycle_exact cycle dim = Some (get_cycle cycle dim) ∧
  Py.getitem S 0 = Some (ring_lo cycle dim, ring_lo cycle dim) ∧
  ∃ p q, Py.getitem S k = Some p ∧
         Py.getitem S ((k + 1) `mod` (4 * n)) = Some q ∧
         q = (p.1 + (walk_step (k `div` n)).1, p.2 + (walk_step (k `div` n)).2).
Proof.
  intros S n. split; [by apply get_cycle_exact_small|]. subst S n.
  rewrite get_cycle_border in * by done. simpl in *.
  pose proof (ring_lo_hi cycle dim Hc) as Hlohi.
  set (lo := ring_lo cycle dim) in *. set (hi := ring_hi cycle dim) in *.
  split.
  { by apply border_getitem_0. }
  destruct (ring_position (hi - lo) k) as (side & i & Hside & Hi & -> & ->);
    [lia..|].
  exists (ring_cell lo hi side i).
  rewrite border_getitem_side by done.
  destruct (decide (i + 1 < hi - lo)) as [Hin|Hlast].
  - exists (ring_cell lo hi side (i + 1)).
    rewrite Z.mod_small by nia.
    replace (side * (hi - lo) + i + 1) with (side * (hi - lo) + (i + 1)) by lia.
    rewrite border_getitem_side by (done || lia).
    split_and!; try done.
    unfold ring_cell, walk_step. repeat case_decide; simpl; f_equal; lia.
  - assert (i = hi - lo - 1) as -> by lia.
    destruct (decide (side = 3)) as [-> | Hs].
    + exists (lo, lo).
      replace (3 * (hi - lo) + (hi - lo - 1) + 1) with (4 * (hi - lo)) by lia.
      rewrite Z_mod_same_full, border_getitem_0 by done.
      split_and!; try done.
      unfold ring_cell, walk_step. simpl. f_equal; lia.
    + exists (ring_cell lo hi (side + 1) 0).
      rewrite Z.mod_small by nia.
      replace (side * (hi - lo) + (hi - lo - 1) + 1)
        with ((side + 1) * (hi - lo) + 0) by lia.
      rewrite border_getitem_side by lia.
      split_and!; try done.
      unfold ring_cell, walk_step. repeat case_decide; simpl; f_equal; lia.
Qed.

Lemma get_cycle_walk_witness :
  (- 2 ^ 53 < 4 < 2 ^ 53 ∧ 0 ≤ 1 ∧ 0 ≤ 11 < 4 * (get_cycle 1 4).2) ∧
  get_cycle_exact 1 4 = Some (get_cycle 1 4) ∧
  Py.getitem (get_cycle 1 4).1 0 = Some (ring_lo 1 4, ring_lo 1 4) ∧
  ∃ p q, Py.getitem (get_cycle 1 4).1 11 = Some p ∧
         Py.getitem (get_cycle 1 4).1 ((11 + 1) `mod` (4 * (get_cycle 1 4).2))
           = Some q ∧
         q = (p.1 + (walk_step (11 `div` (get_cycle 1 4).2)).1,
              p.2 + (walk_step (11 `div` (get_cycle 1 4).2)).2).
Proof.
  assert (- 2 ^ 53 < 4 < 2 ^ 53) as H0 by (split; reflexivity).
  assert (0 ≤ 1) as H1 by lia.
  assert (0 ≤ 11 < 4 * (get_cycle 1 4).2) as H2
    by (change ((get_cycle 1 4).2) with 3; lia).
  split; [exact (conj H0 (conj H1 H2))|].
  exact (get_cycle_walk 1 4 11 H0 H1 H2).
Defined.

(** X7. For 0 <= D < 2^53 and cycle >= 0 the code computes
    [get_cycle cycle D], and in its coordinate list the cell size
    positions further on (cyclically) is the cell a quarter turn clockwise about the centre
    of the matrix: S[(k + size) mod 4*size] = (c, D-1-r) for S[k] = (r, c).
    So the cells S[i], S[i+size], S[i+2*size], S[i+3*size] that the
    rotation exchanges are one orbit of the quarter turn. *)
Theorem get_cycle_quarter_turn (D cycle k : Z)
    (HDb : 0 ≤ D < 2 ^ 53) (Hc : 0 ≤ cycle)
    (Hk : 0 ≤ k < 4 * (get_cycle cycle D).2) :
  let S := (get_cycle cycle D).1 in
  let n := (get_cycle cycle D).2 in
  get_cycle_exact cycle D = Some (get_cycle cycle D) ∧
  ∃ p, Py.getitem S k = Some p ∧
       Py.getitem S ((k + n) `mod` (4 * n)) = Some (turn D p).
Proof.
  intros S n. split; [apply get_cycle_exact_small; lia|]. subst S n.
  pose proof (proj1 HDb) as HD.
  rewrite get_cycle_border in * by done. simpl in *.
  pose proof (ring_lo_hi cycle D Hc) as Hlohi.
  pose proof (ring_hi_mirror cycle D HD) as Hmir.
  set (lo := ring_lo cycle D) in *. set (hi := ring_hi cycle D) in *.
  destruct (ring_position (hi - lo) k) as (side & i & Hside & Hi & -> & _);
    [lia..|].
  exists (ring_cell lo hi side i).
  rewrite border_getitem_side by done. split; [done|].
  destruct (decide (side = 3)) as [-> | Hs].
  - replace (3 * (hi - lo) + i + (hi - lo)) with (i + 1 * (4 * (hi - lo)))
      by lia.
    rewrite Z_mod_plus_full, Z.mod_small by lia.
    destruct (border_getitem lo hi Hlohi i Hi) as (-> & _).
    unfold ring_cell, turn. simpl. do 2 f_equal; lia.
  - rewrite Z.mod_small by nia.
    replace (side * (hi - lo) + i + (hi - lo))
      with ((side + 1) * (hi - lo) + i) by lia.
    rewrite border_getitem_side by lia.
    unfold ring_cell, turn. repeat case_decide; simpl; do 2 f_equal; lia.
Qed.

Lemma get_cycle_quarter_turn_witness :
  (0 ≤ 5 < 2 ^ 53 ∧ 0 ≤ 1 ∧ 0 ≤ 14 < 4 * (get_cycle 1 5).2) ∧
  get_cycle_exact 1 5 = Some (get_cycle 1 5) ∧
  ∃ p, Py.getitem (get_cycle 1 5).1 14 = Some p ∧
       Py.getitem (get_cycle 1 5).1 ((14 + (get_cycle 1 5).2)
                                      `mod` (4 * (get_cycle 1 5).2))
         = Some (turn 5 p).
Proof.
  assert (0 ≤ 5 < 2 ^ 53) as H0 by (split; [lia|reflexivity]).
  assert (0 ≤ 1) as H1 by lia.
  assert (0 ≤ 14 < 4 * (get_cycle 1 5).2) as H2
    by (change ((get_cycle 1 5).2) with 4; lia).
  split; [exact (conj H0 (conj H1 H2))|].
  exact (get_cycle_quarter_turn 5 1 14 H0 H1 H2).
Defined.

(** ** The cell accesses of a rotation *)

Lemma rotate_quartet_run D cycle i s :
  square D (matr s) → 0 ≤ cycle < Z.quot D 2 →
  0 ≤ i < ring_hi cycle D - ring_lo cycle D →
  let lo := ring_lo cycle D in
  let hi := ring_hi cycle D in
  ∃ m', rotate_quartet (border lo hi) (hi - lo) i s
          = Some ((), Store m' (trace s ++
                quartet_trace (lo, lo + i) (lo + i, hi) (hi, hi - i) (hi - i, lo))) ∧
        square D m'.
Proof.
  intros Hsq Hc Hi lo hi.
  pose proof (square_nonneg D _ Hsq) as HD.
  destruct (ring_quartet D cycle i HD Hc Hi)
    as (Hga & Hgb & Hgc & Hgd & Hin & Hnd).
  fold lo hi in Hga, Hgb, Hgc, Hgd, Hin, Hnd.
  rewrite !Forall_cons in Hin. destruct Hin as (Ha & Hb & Hc' & Hd & _).
  rewrite !NoDup_cons, !not_elem_of_cons in Hnd.
  destruct Hnd as ((Hab & Hac & Had & _) & (Hbc & Hbd & _) & (Hcd & _) & _).
  destruct (rotate_quartet_spec D (border lo hi) (hi - lo) i
              (lo, lo + i) (lo + i, hi) (hi, hi - i) (hi - i, lo) s)
    as (m' & Hrun & Hsq' & _); try done.
  by exists m'.
Qed.

Lemma trace_inv_quartet D cycle i s :
  0 ≤ cycle < Z.quot D 2 →
  0 ≤ i < ring_hi cycle D - ring_lo cycle D →
  trace_inv D cycle i s →
  ∃ s', rotate_quartet (border (ring_lo cycle D) (ring_hi cycle D))
          (ring_hi cycle D - ring_lo cycle D) i s = Some ((), s') ∧
        trace_inv D cycle (i + 1) s'.
Proof.
  intros Hc Hi (Hsq & Hlen & Hon).
  destruct (rotate_quartet_run D cycle i s Hsq Hc Hi) as (m' & Hrun & Hsq').
  eexists. split; [exact Hrun|]. split_and!; simpl; [done| |].
  - unfold Py.len in *. rewrite length_app. simpl.
    unfold quartets_before in *. lia.
  - apply Forall_app. split; [done|].
    assert (∀ p, in_quartet (ring_lo cycle D) (ring_hi cycle D) i p →
                 on_ring D p) as Hq by (intros p Hp; by exists cycle, i).
    unfold quartet_trace.
    repeat apply Forall_cons_2; try apply Forall_nil_2; simpl; apply Hq;
      unfold in_quartet; auto.
Qed.

Lemma trace_inv_cycle D cycle s :
  0 ≤ cycle < Z.quot D 2 →
  trace_inv D cycle 0 s →
  ∃ s', rotate_cycle D cycle s = Some ((), s') ∧ trace_inv D (cycle + 1) 0 s'.
Proof.
  intros Hc Hinv. unfold rotate_cycle. rewrite get_cycle_border by lia.
  pose proof (ring_lo_hi cycle D (proj1 Hc)) as Hlohi.
  destruct (for_range (trace_inv D cycle)
              (rotate_quartet (border (ring_lo cycle D) (ring_hi cycle D))
                 (ring_hi cycle D - ring_lo cycle D))
              (ring_hi cycle D - ring_lo cycle D) s) as (s' & Hrun & Hs');
    [lia|done| |].
  - intros i t Hi Ht. by apply trace_inv_quartet.
  - exists s'. split; [done|]. destruct Hs' as (Hsq & Hlen & Hon).
    split_and!; try done. rewrite Hlen. unfold quartets_before.
    rewrite ring_size. lia.
Qed.

Lemma rotate_matrix_trace_spec D (m : matrix) :
  square D m →
  ∃ t, rotate_matrix_trace m = Some t ∧
       Py.len t = 3 * (D * D - D `mod` 2) ∧
       Forall (λ e, on_ring D (event_cell e)) t.
Proof.
  intros Hm. pose proof (square_nonneg D m Hm) as HD.
  unfold rotate_matrix_trace, rotate_matrix_cmd. simpl matr.
  rewrite (square_len D m Hm).
  destruct (for_range (λ cycle, trace_inv D cycle 0) (rotate_cycle D)
              (Z.quot D 2) (Store m [])) as (s' & Hrun & Hs').
  - rewrite quot_2 by done. by apply Z.div_pos.
  - split_and!; simpl; try done.
  - intros cycle t Hc Ht. by apply trace_inv_cycle.
  - rewrite Hrun. exists (trace s'). destruct Hs' as (Hsq & Hlen & Hon).
    split_and!; try done. rewrite Hlen. unfold quartets_before.
    rewrite quot_2 by done.
    pose proof (Z.div_mod D 2). pose proof (Z.mod_pos_bound D 2).
    assert (D `mod` 2 = 0 ∨ D `mod` 2 = 1) as [He|He] by lia;
      rewrite He in *; nia.
Qed.

Lemma on_ring_not_centre D p :
  0 ≤ D → D `mod` 2 = 1 → on_ring D p → p ≠ (D `div` 2, D `div` 2).
Proof.
  intros HD Hodd (cycle & i & Hc & Hi & Hp) ->.
  destruct (ring_bounds_eq D HD) as (h & e & HDeq & He & Hh & Hq & Hring).
  rewrite Hq in *. destruct (Hring cycle) as [Hlo Hhi].
  rewrite Hlo, Hhi in *. pose proof (Z.div_mod D 2).
  destruct Hp as [Hp|[Hp|[Hp|Hp]]]; injection Hp as ? ?; lia.
Qed.

(** X8. On a D-by-D matrix [rotate_matrix] makes exactly
    3 * (D² - D mod 2) cell accesses: twelve for each of the
    (D² - D mod 2) / 4 quartets. *)
Theorem rotate_matrix_access_count (D : Z) (M : matrix) (HM : square D M) :
  ∃ t, rotate_matrix_trace M = Some t ∧
       Py.len t = 3 * (D * D - D `mod` 2).
Proof.
  destruct (rotate_matrix_trace_spec D M HM) as (t & Ht & Hlen & _).
  by exists t.
Qed.

Lemma rotate_matrix_access_count_witness :
  square 3 [[1;2;3];[4;5;6];[7;8;9]] ∧
  ∃ t, rotate_matrix_trace [[1;2;3];[4;5;6];[7;8;9]] = Some t ∧
       Py.len t = 3 * (3 * 3 - 3 `mod` 2).
Proof.
  assert (square 3 [[1;2;3];[4;5;6];[7;8;9]]) as H
    by (split; [reflexivity|repeat constructor]).
  split; [exact H|].
  exact (rotate_matrix_access_count 3 [[1;2;3];[4;5;6];[7;8;9]] H).
Defined.

(** X9. For odd D, [rotate_matrix] never reads or writes the centre cell
    (floor(D/2), floor(D/2)). *)
Theorem rotate_matrix_skips_centre (D : Z) (M : matrix)
    (HM : square D M) (Hodd : D `mod` 2 = 1) :
  ∃ t, rotate_matrix_trace M = Some t ∧
       Forall (λ e, event_cell e ≠ (D `div` 2, D `div` 2)) t.
Proof.
  destruct (rotate_matrix_trace_spec D M HM) as (t & Ht & _ & Hon).
  exists t. split; [done|]. eapply Forall_impl; [exact Hon|].
  intros e He. simpl in He.
  apply on_ring_not_centre; [by eapply square_nonneg|done..].
Qed.

Lemma rotate_matrix_skips_centre_witness :
  (square 3 [[1;2;3];[4;5;6];[7;8;9]] ∧ 3 `mod` 2 = 1) ∧
  ∃ t, rotate_matrix_trace [[1;2;3];[4;5;6];[7;8;9]] = Some t ∧
       Forall (λ e, event_cell e ≠ (3 `div` 2, 3 `div` 2)) t.
Proof.
  assert (square 3 [[1;2;3];[4;5;6];[7;8;9]]) as H
    by (split; [reflexivity|repeat constructor]).
  assert (3 `mod` 2 = 1) as H1 by reflexivity.
  split; [exact (conj H H1)|].
  exact (rotate_matrix_skips_centre 3 [[1;2;3];[4;5;6];[7;8;9]] H H1).
Defined.

(** ** Matrices that are not square *)

Lemma bind_Some {A B} (m : M A) (f : A → M B) s x s' :
  m s = Some (x, s') → bind m f s = f x s'.
Proof. intros H. unfold bind. by rewrite H. Qed.

Lemma bind_None {A B} (m : M A) (f : A → M B) s :
  m s = None → bind m f s = None.
Proof. intros H. unfold bind. by rewrite H. Qed.

Lemma bind_inv {A B} (m : M A) (f : A → M B) s r :
  bind m f s = Some r → ∃ x s', m s = Some (x, s') ∧ f x s' = Some r.
Proof.
  unfold bind. destruct (m s) as [[x s']|]; [|done]. intros H. by exists x, s'.
Qed.

Lemma store_entry_lengths (m m' : matrix) p v :
  store_entry m p v = Some m' → length <$> m' = length <$> m.
Proof.
  unfold store_entry, Py.getitem, Py.setitem. intros H.
  destruct (Py.index (Py.len m) p.1) as [k|]; [|done]. simpl in H.
  destruct (m !! k) as [row|] eqn:Hrow; [|done]. simpl in H.
  destruct (Py.index (Py.len row) p.2) as [j|]; [|done]. simpl in H.
  injection H as <-. rewrite list_fmap_insert, length_insert.
  apply list_insert_id. by rewrite list_lookup_fmap, Hrow.
Qed.

Lemma load_lengths rot k s v s' :
  load rot k s = Some (v, s') → length <$> matr s' = length <$> matr s.
Proof.
  unfold load. intros H.
  destruct (Py.getitem rot k) as [p|]; [|done]. simpl in H.
  destruct (entry (matr s) p) as [x|]; [|done]. simpl in H.
  by injection H as _ <-.
Qed.

Lemma assign_lengths rot k v s u s' :
  assign rot k v s = Some (u, s') → length <$> matr s' = length <$> matr s.
Proof.
  unfold assign. intros H.
  destruct (Py.getitem rot k) as [p|]; [|done]. simpl in H.
  destruct (store_entry (matr s) p v) as [m'|] eqn:Hst; [|done]. simpl in H.
  injection H as _ <-. simpl. by eapply store_entry_lengths.
Qed.

(** The loop body never changes the number of rows nor the length of a
    row. *)
Lemma rotate_quartet_lengths rot size i s u s' :
  rotate_quartet rot size i s = Some (u, s') →
  length <$> matr s' = length <$> matr s.
Proof.
  unfold rotate_quartet. intros H.
  repeat (let Hs := fresh "Hstep" in
          apply bind_inv in H as (? & ? & Hs & H);
          first [apply load_lengths in Hs | apply assign_lengths in Hs]).
  apply assign_lengths in H. congruence.
Qed.

Lemma for_preserves {A} (P : store → Prop) (body : A → M unit) l :
  (∀ x t u t', P t → body x t = Some (u, t') → P t') →
  ∀ s u s', P s → for_ l body s = Some (u, s') → P s'.
Proof.
  intros Hbody. induction l as [|x l IH]; intros s u s' HP Hrun; simpl in Hrun.
  - unfold ret in Hrun. by injection Hrun as _ <-.
  - apply bind_inv in Hrun as (v & t & Hx & Hrun). eauto.
Qed.

(** A loop raises if one of its iterations raises on every store that can
    reach it. *)
Lemma for_fails {A} (P : store → Prop) (body : A → M unit) l x :
  x ∈ l →
  (∀ y t u t', P t → body y t = Some (u, t') → P t') →
  (∀ t, P t → body x t = None) →
  ∀ s, P s → for_ l body s = None.
Proof.
  intros Hx Hbody Hfail. induction l as [|y l IH]; intros s HP.
  - by apply elem_of_nil in Hx.
  - simpl. destruct (body y s) as [[u t]|] eqn:Hy.
    + rewrite (bind_Some _ _ _ _ _ Hy).
      apply elem_of_cons in Hx as [-> | Hx].
      * rewrite Hfail in Hy by done. done.
      * apply IH; [done|]. by eapply Hbody.
    + by apply bind_None.
Qed.

Lemma rotate_cycle_lengths dim cycle s u s' :
  rotate_cycle dim cycle s = Some (u, s') →
  length <$> matr s' = length <$> matr s.
Proof.
  unfold rotate_cycle. destruct (get_cycle cycle dim) as [rot size].
  apply (for_preserves (λ t, length <$> matr t = length <$> matr s));
    [|done].
  intros x t v t' Ht Hrun. apply rotate_quartet_lengths in Hrun. congruence.
Qed.

(** Reading a column beyond the end of a row raises. *)
Lemma entry_short (m : matrix) (r : nat) (row : list Z) c :
  m !! r = Some row → 0 ≤ c → Py.len row ≤ c →
  entry m (Z.of_nat r, c) = None.
Proof.
  intros Hr Hc Hlen. unfold entry. simpl.
  rewrite getitem_in_range.
  - rewrite Nat2Z.id, Hr. simpl. unfold Py.getitem, Py.index.
    rewrite !decide_False by lia. done.
  - apply lookup_lt_Some in Hr. unfold Py.len. lia.
Qed.

(** The loop body raises if the cell it takes from the right side or from
    the lower side cannot be read on any store with the same row lengths. *)
Lemma rotate_quartet_fails rot size i p s :
  Py.getitem rot (i + size) = Some p ∨ Py.getitem rot (i + 2 * size) = Some p →
  (∀ t, length <$> matr t = length <$> matr s → entry (matr t) p = None) →
  rotate_quartet rot size i s = None.
Proof.
  intros Hp Hnone. unfold rotate_quartet.
  assert (∀ k t, Py.getitem rot k = Some p →
                 length <$> matr t = length <$> matr s →
                 load rot k t = None) as Hload.
  { intros k t Hk Ht. unfold load. rewrite Hk. simpl. by rewrite Hnone. }
  destruct Hp as [Hp|Hp].
  { apply bind_None. by apply Hload. }
  destruct (load rot (i + size) s) as [[tmp s1]|] eqn:H1;
    [rewrite (bind_Some _ _ _ _ _ H1)|by apply bind_None].
  destruct (load rot i s1) as [[v s2]|] eqn:H2;
    [rewrite (bind_Some _ _ _ _ _ H2)|by apply bind_None].
  destruct (assign rot (i + size) v s2) as [[u3 s3]|] eqn:H3;
    [rewrite (bind_Some _ _ _ _ _ H3)|by apply bind_None].
  destruct (assign rot i tmp s3) as [[u4 s4]|] eqn:H4;
    [rewrite (bind_Some _ _ _ _ _ H4)|by apply bind_None].
  apply bind_None, Hload; [done|].
  apply load_lengths in H1, H2. apply assign_lengths in H3, H4. congruence.
Qed.

(** X10. A matrix with at least two rows, one of which has fewer entries
    than there are rows, makes [rotate_matrix] raise (IndexError). *)
Theorem rotate_matrix_short_row (M : matrix) (r : nat) (row : list Z)
    (Hrows : 2 ≤ Py.len M) (Hr : M !! r = Some row)
    (Hshort : Py.len row < Py.len M) :
  rotate_matrix M = None.
Proof.
  set (D := Py.len M) in *.
  assert (0 ≤ D) as HD by lia.
  assert (Z.of_nat r < D) as HrD
    by (apply lookup_lt_Some in Hr; unfold D, Py.len; lia).
  destruct (ring_bounds_eq D HD) as (h & e & HDeq & He & Hh & Hq & Hring).
  destruct (Hring (h - 1)) as [Hlo Hhi].
  set (P := λ t : store, length <$> matr t = length <$> M).
  assert (∀ t, P t → entry (matr t) (Z.of_nat r, D - 1) = None) as Hcell.
  { intros t Ht.
    assert (length <$> matr t !! r = Some (length row)) as Hlr
      by (by rewrite <- list_lookup_fmap, Ht, list_lookup_fmap, Hr).
    destruct (matr t !! r) as [row'|] eqn:Hrow'; [|done].
    injection Hlr as Hlr. apply (entry_short _ _ row'); [done|lia|].
    unfold Py.len in *. lia. }
  unfold rotate_matrix.
  enough (rotate_matrix_cmd (Store M []) = None) as -> by done.
  unfold rotate_matrix_cmd. simpl matr. fold D. rewrite Hq.
  apply (for_fails P (rotate_cycle D) _ (h - 1)); [| | |done].
  - unfold Py.range. apply elem_of_seqZ. lia.
  - intros y t u t' Ht Hrun. unfold P in *.
    apply rotate_cycle_lengths in Hrun. congruence.
  - intros t Ht. unfold rotate_cycle. rewrite get_cycle_border by lia.
    rewrite Hlo, Hhi.
    replace (h - (h - 1) - 1) with 0 by lia.
    replace (h + (h - 1) + e) with (D - 1) by lia. rewrite Z.sub_0_r.
    assert (0 < D - 1) as Hlohi by lia.
    set (i := if decide (Z.of_nat r < D - 1) then Z.of_nat r else 0).
    assert (0 ≤ i < D - 1) as Hi by (unfold i; case_decide; lia).
    apply (for_fails (λ u, length <$> matr u = length <$> matr t)
             (rotate_quartet (border 0 (D - 1)) (D - 1)) _ i); [| | |done].
    + unfold Py.range. apply elem_of_seqZ. lia.
    + intros y u v u' Hu Hrun. apply rotate_quartet_lengths in Hrun. congruence.
    + intros u Hu.
      apply (rotate_quartet_fails _ _ _ (Z.of_nat r, D - 1)).
      * destruct (border_getitem 0 (D - 1) Hlohi i) as (_ & Hb & Hc & _);
          [lia|]. rewrite Z.sub_0_r in Hb, Hc.
        subst i. case_decide.
        -- left. rewrite Hb. do 2 f_equal; lia.
        -- right. rewrite Hc. do 2 f_equal; lia.
      * intros w Hw. apply Hcell. unfold P. congruence.
Qed.

Lemma rotate_matrix_short_row_witness :
  (2 ≤ Py.len [[1;2;3];[4;5];[7;8;9]] ∧
   [[1;2;3];[4;5];[7;8;9]] !! 1%nat = Some [4;5] ∧
   Py.len [4;5] < Py.len [[1;2;3];[4;5];[7;8;9]]) ∧
  rotate_matrix [[1;2;3];[4;5];[7;8;9]] = None.
Proof.
  assert (2 ≤ Py.len [[1;2;3];[4;5];[7;8;9]]) as H1 by (vm_compute; discriminate).
  assert ([[1;2;3];[4;5];[7;8;9]] !! 1%nat = Some [4;5]) as H2 by reflexivity.
  assert (Py.len [4;5] < Py.len [[1;2;3];[4;5];[7;8;9]]) as H3 by reflexivity.
  split; [exact (conj H1 (conj H2 H3))|].
  exact (rotate_matrix_short_row _ 1%nat [4;5] H1 H2 H3).
Defined.

(** *** Rows that are too long *)

Lemma store_entry_in_range (m : matrix) p v row :
  0 ≤ p.1 < Py.len m → m !! Z.to_nat p.1 = Some row →
  0 ≤ p.2 < Py.len row →
  store_entry m p v
  = Some (<[Z.to_nat p.1 := <[Z.to_nat p.2 := v]> row]> m).
Proof.
  intros Hr Hrow Hc. unfold store_entry.
  rewrite getitem_in_range by done. rewrite Hrow. simpl.
  rewrite setitem_in_range by done. simpl.
  by rewrite setitem_in_range by done.
Qed.

Lemma store_entry_square D (m m' : matrix) p v :
  square D m → in_range D p → store_entry m p v = Some m' → square D m'.
Proof.
  intros Hm Hp Hst.
  destruct (store_entry_spec D m p v Hm Hp) as (m'' & Hst' & Hsq & _).
  congruence.
Qed.

Section wide.
Context (D : Z) (tails : list (list Z)) (Htails : Py.len tails = D).
Implicit Types (m : matrix) (p : coord).

Lemma zip_row m r row :
  square D m → m !! r = Some row →
  ∃ tl, tails !! r = Some tl ∧
        zip_with (++) m tails !! r = Some (row ++ tl).
Proof using Htails.
  intros Hm Hrow. pose proof (square_len D m Hm) as Hlen.
  destruct (lookup_lt_is_Some_2 tails r) as [tl Htl].
  { apply lookup_lt_Some in Hrow. unfold Py.len in *. lia. }
  exists tl. split; [done|]. rewrite lookup_zip_with, Hrow, Htl. done.
Qed.

Lemma len_zip m : square D m → Py.len (zip_with (++) m tails) = D.
Proof using Htails.
  intros Hm. pose proof (square_len D m Hm) as Hlen. unfold Py.len in *.
  rewrite length_zip_with_l_eq; lia.
Qed.

Lemma entry_zip m p :
  square D m → in_range D p → entry (zip_with (++) m tails) p = entry m p.
Proof using Htails.
  intros Hm Hp. rewrite (entry_in_range D m) by done.
  destruct Hp as [Hr Hc]. pose proof (square_len D m Hm) as Hlen.
  destruct (lookup_lt_is_Some_2 m (Z.to_nat p.1)) as [row Hrow].
  { unfold Py.len in *. lia. }
  destruct (zip_row m _ row Hm Hrow) as (tl & Htl & Hz).
  pose proof (square_row D m _ row Hm Hrow) as Hlenr.
  unfold entry. rewrite getitem_in_range by (by rewrite len_zip).
  rewrite Hz, Hrow. simpl.
  rewrite getitem_in_range
    by (unfold Py.len in *; rewrite length_app; lia).
  apply lookup_app_l. unfold Py.len in *. lia.
Qed.

Lemma store_entry_zip m m' p v :
  square D m → in_range D p → store_entry m p v = Some m' →
  store_entry (zip_with (++) m tails) p v = Some (zip_with (++) m' tails).
Proof using Htails.
  intros Hm [Hr Hc] Hst. pose proof (square_len D m Hm) as Hlen.
  destruct (lookup_lt_is_Some_2 m (Z.to_nat p.1)) as [row Hrow].
  { unfold Py.len in *. lia. }
  destruct (zip_row m _ row Hm Hrow) as (tl & Htl & Hz).
  pose proof (square_row D m _ row Hm Hrow) as Hlenr.
  rewrite (store_entry_in_range m p v row) in Hst by (done || lia).
  injection Hst as <-.
  rewrite (store_entry_in_range _ p v (row ++ tl)).
  - f_equal. rewrite insert_app_l by (unfold Py.len in *; lia).
    rewrite insert_zip_with. f_equal. by apply list_insert_id.
  - by rewrite len_zip.
  - done.
  - unfold Py.len in *. rewrite length_app. lia.
Qed.

Lemma load_zip rot k p m t x :
  Py.getitem rot k = Some p → in_range D p → square D m →
  entry m p = Some x →
  load rot k (Store (zip_with (++) m tails) t)
  = Some (x, Store (zip_with (++) m tails) (t ++ [Rd p])).
Proof using Htails.
  intros Hk Hp Hm Hx. unfold load. rewrite Hk. simpl.
  rewrite entry_zip by done. by rewrite Hx.
Qed.

Lemma assign_zip rot k p m m' t v :
  Py.getitem rot k = Some p → in_range D p → square D m →
  store_entry m p v = Some m' →
  assign rot k v (Store (zip_with (++) m tails) t)
  = Some ((), Store (zip_with (++) m' tails) (t ++ [Wr p])).
Proof using Htails.
  intros Hk Hp Hm Hst. unfold assign. rewrite Hk. simpl.
  by rewrite (store_entry_zip m m').
Qed.

(** One run of the loop body on a matrix with longer rows does to the
    first [D] columns what it does to the square matrix, and keeps the
    rest of each row. *)
Lemma rotate_quartet_zip rot size i a b c d m t :
  Py.getitem rot i = Some a →
  Py.getitem rot (i + size) = Some b →
  Py.getitem rot (i + 2 * size) = Some c →
  Py.getitem rot (i + 3 * size) = Some d →
  in_range D a → in_range D b → in_range D c → in_range D d →
  a ≠ b → a ≠ c → a ≠ d → b ≠ c → b ≠ d → c ≠ d →
  square D m →
  ∃ m' t',
    rotate_quartet rot size i (Store m t) = Some ((), Store m' t') ∧
    rotate_quartet rot size i (Store (zip_with (++) m tails) t)
      = Some ((), Store (zip_with (++) m' tails) t') ∧
    square D m'.
Proof using Htails.
  intros Hga Hgb Hgc Hgd Ha Hb Hc Hd Hab Hac Had Hbc Hbd Hcd Hm.
  destruct (rotate_quartet_spec D rot size i a b c d (Store m t))
    as (m' & Hrun & Hsq' & _); try done. simpl in Hrun.
  exists m', (t ++ quartet_trace a b c d). split_and!; try done.
  destruct (entry_is_Some D m a Hm Ha) as [xa Hxa].
  destruct (entry_is_Some D m b Hm Hb) as [xb Hxb].
  destruct (entry_is_Some D m c Hm Hc) as [xc Hxc].
  destruct (entry_is_Some D m d Hm Hd) as [xd Hxd].
  destruct (swap_entries D m a b xa xb) as
    (m1 & m2 & Hs1 & Ha1 & Hs2 & Hm2 & Ha2 & Hb2 & Hoth2 & _); try done.
  assert (entry m2 c = Some xc) as Hc2 by (by rewrite Hoth2).
  destruct (swap_entries D m2 a c xb xc) as
    (m3 & m4 & Hs3 & Ha3 & Hs4 & Hm4 & Ha4 & Hc4 & Hoth4 & _); try done.
  assert (entry m4 d = Some xd) as Hd4 by (by rewrite Hoth4, Hoth2).
  destruct (swap_entries D m4 a d xc xd) as
    (m5 & m6 & Hs5 & Ha5 & Hs6 & Hm6 & Ha6 & Hd6 & Hoth6 & _); try done.
  pose proof (store_entry_square D m m1 b xa Hm Hb Hs1) as Hm1.
  pose proof (store_entry_square D m2 m3 c xb Hm2 Hc Hs3) as Hm3.
  pose proof (store_entry_square D m4 m5 d xc Hm4 Hd Hs5) as Hm5.
  assert (m6 = m') as <-.
  { revert Hrun. unfold rotate_quartet, bind, load, assign; simpl.
    rewrite Hgb; simpl. rewrite Hxb; simpl.
    rewrite Hga; simpl. rewrite Hxa; simpl.
    rewrite Hs1; simpl. rewrite Hs2; simpl.
    rewrite Hgc; simpl. rewrite Hc2; simpl. rewrite Ha2; simpl.
    rewrite Hs3; simpl. rewrite Hs4; simpl.
    rewrite Hgd; simpl. rewrite Hd4; simpl. rewrite Ha4; simpl.
    rewrite Hs5; simpl. rewrite Hs6; simpl.
    by intros [= ->]. }
  unfold rotate_quartet.
  rewrite (bind_Some _ _ _ _ _ (load_zip rot _ b m _ xb Hgb Hb Hm Hxb)).
  rewrite (bind_Some _ _ _ _ _ (load_zip rot _ a m _ xa Hga Ha Hm Hxa)).
  rewrite (bind_Some _ _ _ _ _ (assign_zip rot _ b m m1 _ xa Hgb Hb Hm Hs1)).
  rewrite (bind_Some _ _ _ _ _ (assign_zip rot _ a m1 m2 _ xb Hga Ha Hm1 Hs2)).
  rewrite (bind_Some _ _ _ _ _ (load_zip rot _ c m2 _ xc Hgc Hc Hm2 Hc2)).
  rewrite (bind_Some _ _ _ _ _ (load_zip rot _ a m2 _ xb Hga Ha Hm2 Ha2)).
  rewrite (bind_Some _ _ _ _ _ (assign_zip rot _ c m2 m3 _ xb Hgc Hc Hm2 Hs3)).
  rewrite (bind_Some _ _ _ _ _ (assign_zip rot _ a m3 m4 _ xc Hga Ha Hm3 Hs4)).
  rewrite (bind_Some _ _ _ _ _ (load_zip rot _ d m4 _ xd Hgd Hd Hm4 Hd4)).
  rewrite (bind_Some _ _ _ _ _ (load_zip rot _ a m4 _ xc Hga Ha Hm4 Ha4)).
  rewrite (bind_Some _ _ _ _ _ (assign_zip rot _ d m4 m5 _ xc Hgd Hd Hm4 Hs5)).
  rewrite (assign_zip rot _ a m5 m6 _ xd Hga Ha Hm5 Hs6).
  by rewrite <- !app_assoc.
Qed.

End wide.

(** Two runs of a loop that stay related step by step. *)
Lemma for_sim {A} (Rel : store → store → Prop) (body : A → M unit) l :
  (∀ x s s', x ∈ l → Rel s s' →
     ∃ t t', body x s = Some ((), t) ∧ body x s' = Some ((), t') ∧ Rel t t') →
  ∀ s s', Rel s s' →
    ∃ t t', for_ l body s = Some ((), t) ∧ for_ l body s' = Some ((), t') ∧
            Rel t t'.
Proof.
  induction l as [|x l IH]; intros Hbody s s' HR.
  - by exists s, s'.
  - destruct (Hbody x s s') as (t & t' & Ht & Ht' & HR'); [by left|done|].
    destruct IH with (s := t) (s' := t') as (u & u' & Hu & Hu' & HR'');
      [|done|].
    { intros y v v' Hy. apply Hbody. by right. }
    exists u, u'. simpl.
    by rewrite (bind_Some _ _ _ _ _ Ht), (bind_Some _ _ _ _ _ Ht').
Qed.

Lemma rotate_cycle_with_tails D tails cycle s s' :
  Py.len tails = D → 0 ≤ cycle < Z.quot D 2 →
  with_tails D tails s s' →
  ∃ t t', rotate_cycle D cycle s = Some ((), t) ∧
          rotate_cycle D cycle s' = Some ((), t') ∧
          with_tails D tails t t'.
Proof.
  intros Htails Hc HR. unfold rotate_cycle. rewrite get_cycle_border by lia.
  apply for_sim; [|done].
  intros i [m t] [m' t'] Hi (Hsq & Hm & Ht). simpl in *. subst m t.
  unfold Py.range in Hi. apply elem_of_seqZ in Hi.
  pose proof (square_nonneg D m' Hsq) as HD.
  destruct (ring_quartet D cycle i HD Hc) as (Hga & Hgb & Hgc & Hgd & Hin & Hnd);
    [lia|].
  rewrite !Forall_cons in Hin. destruct Hin as (Ha & Hb & Hc' & Hd & _).
  rewrite !NoDup_cons, !not_elem_of_cons in Hnd.
  destruct Hnd as ((Hab & Hac & Had & _) & (Hbc & Hbd & _) & (Hcd & _) & _).
  destruct (rotate_quartet_zip D tails Htails _ _ i _ _ _ _ m' t'
              Hga Hgb Hgc Hgd) as (m1 & t1 & Hrun' & Hrun & Hsq1); try done.
  exists (Store (zip_with (++) m1 tails) t1), (Store m1 t1).
  by split_and!.
Qed.

Lemma zip_take_drop (n : nat) (M : matrix) :
  zip_with (++) (take n <$> M) (drop n <$> M) = M.
Proof.
  induction M as [|row M IH]; [done|]. csimpl.
  by rewrite take_drop, IH.
Qed.

(** X11. Rows that are longer than the number D of rows do not make
    [rotate_matrix] raise: it rotates the first D columns as it rotates
    the D-by-D matrix they form, and leaves the entries of every row
    beyond column D where they are. *)
Theorem rotate_matrix_long_rows (M : matrix)
    (Hlong : Forall (λ row, Py.len M ≤ Py.len row) M) :
  let n := length M in
  ∃ R, rotate_matrix (take n <$> M) = Some R ∧
       square (Py.len M) R ∧
       rotate_matrix M = Some (zip_with (++) R (drop n <$> M)).
Proof.
  intros n. set (D := Py.len M) in *.
  assert (square D (take n <$> M)) as Hsq.
  { split.
    - unfold Py.len. by rewrite length_fmap.
    - apply Forall_fmap. eapply Forall_impl; [exact Hlong|].
      intros row Hrow. simpl in *. unfold Py.len in *.
      rewrite length_take. unfold D, n in *. lia. }
  assert (Py.len (drop n <$> M) = D) as Htails
    by (unfold Py.len; by rewrite length_fmap).
  assert (0 ≤ D) as HD by (unfold D, Py.len; lia).
  unfold rotate_matrix, rotate_matrix_cmd. simpl matr.
  rewrite (square_len D _ Hsq). fold D.
  destruct (for_sim (with_tails D (drop n <$> M)) (rotate_cycle D)
              (Py.range 0 (Z.quot D 2)) ) with (s := Store M [])
              (s' := Store (take n <$> M) [])
    as (t & t' & Ht & Ht' & Hsq' & Hm & _).
  - intros cycle s s' Hc HR. unfold Py.range in Hc.
    apply elem_of_seqZ in Hc.
    apply rotate_cycle_with_tails; [done|lia|done].
  - split_and!; [done| |done]. symmetry. apply zip_take_drop.
  - rewrite Ht, Ht'. exists (matr t'). split_and!; try done.
    by rewrite Hm.
Qed.

Lemma rotate_matrix_long_rows_witness :
  Forall (λ row, Py.len [[1;2;0];[3;4;5]] ≤ Py.len row) [[1;2;0];[3;4;5]] ∧
  ∃ R, rotate_matrix (take 2 <$> [[1;2;0];[3;4;5]]) = Some R ∧
       square (Py.len [[1;2;0];[3;4;5]]) R ∧
       rotate_matrix [[1;2;0];[3;4;5]]
       = Some (zip_with (++) R (drop 2 <$> [[1;2;0];[3;4;5]])).
Proof.
  assert (Forall (λ row, Py.len [[1;2;0];[3;4;5]] ≤ Py.len row)
            [[1;2;0];[3;4;5]]) as H
    by (repeat constructor; vm_compute; discriminate).
  split; [exact H|]. exact (rotate_matrix_long_rows [[1;2;0];[3;4;5]] H).
Defined.

(** X12. A matrix with at most one row is returned as it is, without any
    cell access, whatever the length of its row. *)
Theorem rotate_matrix_one_row (M : matrix) (Hrows : Py.len M ≤ 1) :
  rotate_matrix M = Some M ∧ rotate_matrix_trace M = Some [].
Proof.
  unfold rotate_matrix, rotate_matrix_trace, rotate_matrix_cmd. simpl matr.
  assert (Py.len M = 0 ∨ Py.len M = 1) as [-> | ->]
    by (unfold Py.len in *; lia); done.
Qed.

Lemma rotate_matrix_one_row_witness :
  Py.len [[1;2;3]] ≤ 1 ∧
  rotate_matrix [[1;2;3]] = Some [[1;2;3]] ∧
  rotate_matrix_trace [[1;2;3]] = Some [].
Proof.
  assert (Py.len [[1;2;3]] ≤ 1) as H by (vm_compute; discriminate).
  split; [exact H|]. exact (rotate_matrix_one_row [[1;2;3]] H).
Defined.

(** ** [create_matrix] *)

Section create_matrix.
Context (split : string → list string).
Implicit Types (matr : list (list string)) (c : console) (line : string).

Lemma io_bind_inl {A B} (m : IO A) (f : A → IO B) c x c' :
  m c = (inl x, c') → io_bind m f c = f x c'.
Proof. intros H. unfold io_bind. by rewrite H. Qed.

Lemma io_bind_inr {A B} (m : IO A) (f : A → IO B) c e c' :
  m c = (inr e, c') → io_bind m f c = (inr e, c').
Proof. intros H. unfold io_bind. by rewrite H. Qed.

Lemma create_matrix_line_eof dim matr i c :
  stdin c = [] →
  (create_matrix_line split dim matr i c).1 = inr EOFError ∧
  stdin (create_matrix_line split dim matr i c).2 = [].
Proof.
  intros Hc. unfold create_matrix_line, input, io_bind, write. simpl.
  by rewrite Hc.
Qed.

Lemma create_matrix_line_read dim matr i c line rest :
  stdin c = line :: rest → Py.len matr = i →
  ∃ out,
    create_matrix_line split dim matr i c
    = (if decide (Py.len (split line) ≠ dim)
       then inr (SystemExit only_symmetric)
       else inl (matr ++ [split line]),
       Console rest out).
Proof.
  intros Hc Hlen. unfold create_matrix_line, input, io_bind, write. simpl.
  rewrite Hc. eexists.
  assert (Py.getitem (matr ++ [split line]) i = Some (split line)) as ->.
  { rewrite getitem_in_range
      by (unfold Py.len in *; rewrite length_app; simpl; lia).
    rewrite lookup_app_r by (unfold Py.len in *; lia).
    replace (Z.to_nat i - length matr)%nat with 0%nat
      by (unfold Py.len in *; lia). done. }
  by case_decide.
Qed.

(** The loop of [create_matrix] from line [i0] on, for [n] more lines:
    it returns, or stops at the first line with a wrong number of words,
    or runs out of input. *)
Lemma create_matrix_loop dim (n : nat) :
  ∀ i0 matr c, Py.len matr = i0 →
    let r := io_for (seqZ i0 (Z.of_nat n)) (create_matrix_line split dim) matr c in
    ((n ≤ length (stdin c))%nat ∧
     Forall (λ line, Py.len (split line) = dim) (take n (stdin c)) ∧
     r.1 = inl (matr ++ (split <$> take n (stdin c))) ∧
     stdin r.2 = drop n (stdin c))
    ∨ (∃ k line, (k < n)%nat ∧ stdin c !! k = Some line ∧
         Forall (λ line, Py.len (split line) = dim) (take k (stdin c)) ∧
         Py.len (split line) ≠ dim ∧
         r.1 = inr (SystemExit only_symmetric) ∧
         stdin r.2 = drop (S k) (stdin c))
    ∨ ((length (stdin c) < n)%nat ∧
       Forall (λ line, Py.len (split line) = dim) (stdin c) ∧
       r.1 = inr EOFError ∧ stdin r.2 = []).
Proof.
  induction n as [|n IH]; intros i0 matr c Hlen r.
  - left. subst r. simpl. rewrite app_nil_r.
    split_and!; [lia|by rewrite take_0|done|done].
  - subst r. rewrite seqZ_cons by lia. simpl io_for.
    replace (Z.pred (Z.of_nat (S n))) with (Z.of_nat n) by lia.
    destruct (stdin c) as [|line rest] eqn:Hc.
    + right; right.
      destruct (create_matrix_line_eof dim matr i0 c Hc) as [He Hs].
      destruct (create_matrix_line split dim matr i0 c) as [[x|e] c'] eqn:E;
        simpl in *; [done|].
      rewrite (io_bind_inr _ _ _ _ _ E). simpl.
      split_and!; [lia|done|done|done].
    + destruct (create_matrix_line_read dim matr i0 c line rest Hc Hlen)
        as (out & E).
      case_decide as Hbad.
      * right; left. exists 0%nat, line.
        rewrite (io_bind_inr _ _ _ _ _ E). simpl.
        split_and!; [lia|done|done|done|done|done].
      * rewrite (io_bind_inl _ _ _ _ _ E).
        assert (Py.len (split line) = dim) as Hgood
          by (destruct (decide (Py.len (split line) = dim)); [done|tauto]).
        destruct (IH (Z.succ i0) (matr ++ [split line]) (Console rest out))
          as [(Hn & Hall & Hr & Hs)|[(k & l & Hk & Hl & Hall & Hb & Hr & Hs)
               |(Hn & Hall & Hr & Hs)]].
        { unfold Py.len in *. rewrite length_app. simpl. lia. }
        -- left. simpl in *. split_and!; [lia|by constructor| |done].
           rewrite Hr. by rewrite <- app_assoc.
        -- right; left. exists (S k), l. simpl in *.
           split_and!; [lia|done|by constructor|done|done|done].
        -- right; right. simpl in *.
           split_and!; [lia|by constructor|done|done].
Qed.

Lemma create_matrix_cases dim c :
  let n := Z.to_nat dim in
  let r := create_matrix split dim c in
  ((n ≤ length (stdin c))%nat ∧
   Forall (λ line, Py.len (split line) = dim) (take n (stdin c)) ∧
   r.1 = inl (split <$> take n (stdin c)) ∧
   stdin r.2 = drop n (stdin c))
  ∨ (∃ k line, (k < n)%nat ∧ stdin c !! k = Some line ∧
       Forall (λ line, Py.len (split line) = dim) (take k (stdin c)) ∧
       Py.len (split line) ≠ dim ∧
       r.1 = inr (SystemExit only_symmetric) ∧
       stdin r.2 = drop (S k) (stdin c))
  ∨ ((length (stdin c) < n)%nat ∧
     Forall (λ line, Py.len (split line) = dim) (stdin c) ∧
     r.1 = inr EOFError ∧ stdin r.2 = []).
Proof.
  intros n r. subst r. unfold create_matrix, Py.range.
  rewrite Z.sub_0_r.
  replace (seqZ 0 dim) with (seqZ 0 (Z.of_nat n)).
  - apply (create_matrix_loop dim n 0 [] c). done.
  - unfold n. destruct (decide (0 ≤ dim)).
    + by rewrite Z2Nat.id.
    + rewrite !seqZ_nil by lia. done.
Qed.

End create_matrix.

Lemma good_lines_lookup (split : string → list string) dim lines n k line :
  Forall (λ line, Py.len (split line) = dim) (take n lines) →
  (k < n)%nat → lines !! k = Some line → Py.len (split line) = dim.
Proof.
  intros Hall Hk Hline. rewrite Forall_lookup in Hall.
  apply (Hall k line). by rewrite lookup_take_lt.
Qed.

(** X13. [create_matrix dim] returns the matrix m exactly when the input
    holds at least dim lines, each of the first dim lines splits into dim
    words, and m is these lines, split.  A matrix it returns has
    max(0, dim) rows of dim words each, and exactly the first dim lines
    have been read. *)
Theorem create_matrix_returns (split : string → list string)
    (dim : Z) (c : console) (m : list (list string)) :
  let n := Z.to_nat dim in
  ((create_matrix split dim c).1 = inl m ↔
   (n ≤ length (stdin c))%nat ∧
   Forall (λ line, Py.len (split line) = dim) (take n (stdin c)) ∧
   m = split <$> take n (stdin c)) ∧
  ((create_matrix split dim c).1 = inl m →
   Py.len m = Z.max 0 dim ∧ Forall (λ row, Py.len row = dim) m ∧
   stdin (create_matrix split dim c).2 = drop n (stdin c)).
Proof.
  intros n.
  destruct (create_matrix_cases split dim c)
    as [(Hn & Hall & Hr & Hs)|[(k & l & Hk & Hl & Hall & Hb & Hr & Hs)
         |(Hn & Hall & Hr & Hs)]]; fold n in Hn || fold n in Hk.
  - fold n in Hall, Hr, Hs. rewrite Hr. split; [split|].
    + by intros [= <-].
    + by intros (_ & _ & ->).
    + intros [= <-]. split_and!; try done.
      * unfold Py.len. rewrite length_fmap, length_take_le by done.
        unfold n. lia.
      * by apply Forall_fmap.
  - rewrite Hr. split; [split|]; [done| |done]. intros (_ & Hall' & _).
    destruct Hb.
    by apply (good_lines_lookup split dim (stdin c) n k l Hall').
  - rewrite Hr. split; [split|]; [done| |done]. intros (? & _). lia.
Qed.

(** X14. [create_matrix dim] exits with "ERROR: Only symmetric matrices
    allowed." at the first line that does not split into dim words, and
    reads no line after it. *)
Theorem create_matrix_rejects (split : string → list string)
    (dim : Z) (c : console) (k : nat) (line : string)
    (Hk : (k < Z.to_nat dim)%nat) (Hline : stdin c !! k = Some line)
    (Hgood : Forall (λ line, Py.len (split line) = dim) (take k (stdin c)))
    (Hbad : Py.len (split line) ≠ dim) :
  (create_matrix split dim c).1 = inr (SystemExit only_symmetric) ∧
  stdin (create_matrix split dim c).2 = drop (S k) (stdin c).
Proof.
  destruct (create_matrix_cases split dim c)
    as [(Hn & Hall & Hr & Hs)|[(k' & l & Hk' & Hl & Hall & Hb & Hr & Hs)
         |(Hn & Hall & Hr & Hs)]].
  - destruct Hbad. by eapply good_lines_lookup.
  - assert (k' = k) as ->; [|done].
    destruct (decide (k' < k)%nat).
    { destruct Hb.
      by apply (good_lines_lookup split dim (stdin c) k k' l Hgood). }
    destruct (decide (k < k')%nat); [|lia].
    destruct Hbad.
    by apply (good_lines_lookup split dim (stdin c) k' k line Hall).
  - destruct Hbad. rewrite Forall_lookup in Hall. by eapply Hall.
Qed.

Lemma create_matrix_rejects_witness :
  ((1 < Z.to_nat 2)%nat ∧
   stdin (Console ["a"; "b"; "c"] EmptyString) !! 1%nat = Some "b" ∧
   Forall (λ line, Py.len ((λ s : string,
              if decide (s = "b") then [s] else [s; s]) line) = 2)
     (take 1 (stdin (Console ["a"; "b"; "c"] EmptyString))) ∧
   Py.len ((λ s : string, if decide (s = "b") then [s] else [s; s]) "b") ≠ 2) ∧
  (create_matrix (λ s, if decide (s = "b") then [s] else [s; s]) 2
     (Console ["a"; "b"; "c"] EmptyString)).1
  = inr (SystemExit only_symmetric) ∧
  stdin (create_matrix (λ s, if decide (s = "b") then [s] else [s; s]) 2
           (Console ["a"; "b"; "c"] EmptyString)).2 = ["c"].
Proof.
  assert ((1 < Z.to_nat 2)%nat) as H1 by (vm_compute; lia).
  assert (stdin (Console ["a"; "b"; "c"] EmptyString) !! 1%nat = Some "b")
    as H2 by reflexivity.
  assert (Forall (λ line, Py.len ((λ s : string,
                     if decide (s = "b") then [s] else [s; s]) line) = 2)
            (take 1 (stdin (Console ["a"; "b"; "c"] EmptyString)))) as H3
    by (repeat constructor).
  assert (Py.len ((λ s : string, if decide (s = "b") then [s] else [s; s]) "b")
          ≠ 2) as H4 by (vm_compute; discriminate).
  split; [exact (conj H1 (conj H2 (conj H3 H4)))|].
  exact (create_matrix_rejects _ 2 _ 1%nat "b" H1 H2 H3 H4).
Defined.

(** X15. [create_matrix dim] raises EOFError when the input ends before
    dim lines were read and every line it holds splits into dim words. *)
Theorem create_matrix_end_of_input (split : string → list string)
    (dim : Z) (c : console)
    (Hfew : (length (stdin c) < Z.to_nat dim)%nat)
    (Hgood : Forall (λ line, Py.len (split line) = dim) (stdin c)) :
  (create_matrix split dim c).1 = inr EOFError.
Proof.
  destruct (create_matrix_cases split dim c)
    as [(Hn & Hall & Hr & Hs)|[(k' & l & Hk' & Hl & Hall & Hb & Hr & Hs)
         |(Hn & Hall & Hr & Hs)]]; [lia| |done].
  destruct Hb. rewrite Forall_lookup in Hgood. by eapply Hgood.
Qed.

Lemma create_matrix_end_of_input_witness :
  ((length (stdin (Console ["a"] EmptyString)) < Z.to_nat 2)%nat ∧
   Forall (λ line, Py.len ((λ s : string, [s; s]) line) = 2)
     (stdin (Console ["a"] EmptyString))) ∧
  (create_matrix (λ s, [s; s]) 2 (Console ["a"] EmptyString)).1 = inr EOFError.
Proof.
  assert ((length (stdin (Console ["a"] EmptyString)) < Z.to_nat 2)%nat) as H1
    by (vm_compute; lia).
  assert (Forall (λ line, Py.len ((λ s : string, [s; s]) line) = 2)
            (stdin (Console ["a"] EmptyString))) as H2 by (repeat constructor).
  split; [exact (conj H1 H2)|].
  exact (create_matrix_end_of_input (λ s, [s; s]) 2 _ H1 H2).
Defined.

(** X16. [create_matrix] raises nothing but the exit with "ERROR: Only
    symmetric matrices allowed." and EOFError; its subscript [matr[i]]
    never raises IndexError. *)
Theorem create_matrix_raises (split : string → list string)
    (dim : Z) (c : console) (e : exn) :
  (create_matrix split dim c).1 = inr e →
  e = SystemExit only_symmetric ∨ e = EOFError.
Proof.
  destruct (create_matrix_cases split dim c)
    as [(Hn & Hall & Hr & Hs)|[(k' & l & Hk' & Hl & Hall & Hb & Hr & Hs)
         |(Hn & Hall & Hr & Hs)]]; rewrite Hr; intros [= <-]; auto.
Qed.

Lemma create_matrix_raises_witness :
  (create_matrix (λ s, [s; s]) 2 (Console ["a"] EmptyString)).1 = inr EOFError ∧
  (EOFError = SystemExit only_symmetric ∨ EOFError = EOFError).
Proof.
  assert ((create_matrix (λ s, [s; s]) 2 (Console ["a"] EmptyString)).1
          = inr EOFError) as H by reflexivity.
  split; [exact H|].
  exact (create_matrix_raises (λ s, [s; s]) 2 _ EOFError H).
Defined.

Lemma create_matrix_returns_witness :
  ((Z.to_nat 2 ≤ length (stdin (Console ["a"; "b"; "c"] EmptyString)))%nat ∧
   Forall (λ line, Py.len ((λ s : string, [s; s]) line) = 2)
     (take (Z.to_nat 2) (stdin (Console ["a"; "b"; "c"] EmptyString))) ∧
   [["a"; "a"]; ["b"; "b"]]
   = (λ s : string, [s; s])
       <$> take (Z.to_nat 2) (stdin (Console ["a"; "b"; "c"] EmptyString))) ∧
  (create_matrix (λ s, [s; s]) 2 (Console ["a"; "b"; "c"] EmptyString)).1
    = inl [["a"; "a"]; ["b"; "b"]] ∧
  stdin (create_matrix (λ s, [s; s]) 2 (Console ["a"; "b"; "c"] EmptyString)).2
    = ["c"].
Proof.
  assert ((Z.to_nat 2 ≤ length (stdin (Console ["a"; "b"; "c"] EmptyString)))%nat)
    as H1 by (vm_compute; lia).
  assert (Forall (λ line, Py.len ((λ s : string, [s; s]) line) = 2)
            (take (Z.to_nat 2) (stdin (Console ["a"; "b"; "c"] EmptyString))))
    as H2 by (repeat constructor).
  assert ([["a"; "a"]; ["b"; "b"]]
          = (λ s : string, [s; s])
              <$> take (Z.to_nat 2)
                    (stdin (Console ["a"; "b"; "c"] EmptyString)))
    as H3 by reflexivity.
  pose proof (create_matrix_returns (λ s, [s; s]) 2
                (Console ["a"; "b"; "c"] EmptyString)
                [["a"; "a"]; ["b"; "b"]]) as [Hiff Hthen].
  pose proof (proj2 Hiff (conj H1 (conj H2 H3))) as Hret.
  split; [exact (conj H1 (conj H2 H3))|].
  split; [exact Hret|]. exact (proj2 (proj2 (Hthen Hret))).
Defined.

(** ** [print_matrix] *)

















(** The text of the 2-by-2 enumerated matrix. *)
Example print_matrix_2 :
  (print_matrix 4300 (generate_matrix 2) (Console [] EmptyString)).2
  = Console [] (String tab (String "1" (String tab (String "2"
      (String nl (String nl (String tab (String "3" (String tab (String "4"
      (String nl (String nl EmptyString)))))))))))).
Proof. reflexivity. Qed.

(** An entry of 641 digits under a limit of 640 digits, the smallest limit
    the interpreter can be set to. *)
Example print_matrix_beyond_limit :
  digits (10 ^ 640) = 641 ∧
  (print_matrix 640 [[10 ^ 640]] (Console [] EmptyString)).1
    = inr ValueError.
Proof. vm_compute. done. Qed.
